(** * Minesweeper knowledge base: a shallow embedding of [minesweeper.py]

    The development follows the classes [Sentence] and [MinesweeperAI] of
    the source.  Python sets of cells are finite sets [gset cell]; the
    knowledge base, a Python list of [Sentence] objects, is a [list].  Every
    method that mutates its receiver becomes a function returning the new
    value of the receiver. *)

From Stdlib Require Import ZArith List Lia.
From stdpp Require Import base decidable option numbers list sets gmap fin_sets.

Local Open Scope Z_scope.
Set Warnings "-clear-no-such-hyp".

(** ** Cells and sentences *)

(** A cell is a Python tuple [(i, j)] of integers. *)
Definition cell : Type := Z * Z.

(** [class Sentence]: the attributes [cells] and [count]. *)
Record Sentence := mkSentence {
  cells : gset cell;
  count : Z
}.

(** [len(s)] of a Python set, as an integer. *)
Definition len (s : gset cell) : Z := Z.of_nat (size s).

Module SentenceOps.

(** [Sentence.__init__(cells, count)]: [set(cells)] of any iterable. *)
Definition init (cs : list cell) (n : Z) : Sentence :=
  mkSentence (list_to_set cs) n.

(** [Sentence.__eq__]. *)
Definition eq (s o : Sentence) : bool :=
  bool_decide (cells s = cells o) && (count s =? count o).

(** [Sentence.known_mines]. *)
Definition known_mines (s : Sentence) : gset cell :=
  if (len (cells s) =? count s) && (0 <? len (cells s))
  then cells s else ∅.

(** [Sentence.known_safes]. *)
Definition known_safes (s : Sentence) : gset cell :=
  if count s =? 0 then cells s else ∅.

(** [Sentence.mark_mine]. *)
Definition mark_mine (c : cell) (s : Sentence) : Sentence :=
  if bool_decide (c ∈ cells s)
  then mkSentence (cells s ∖ {[ c ]}) (count s - 1)
  else s.

(** [Sentence.mark_safe]. *)
Definition mark_safe (c : cell) (s : Sentence) : Sentence :=
  if bool_decide (c ∈ cells s)
  then mkSentence (cells s ∖ {[ c ]}) (count s)
  else s.

End SentenceOps.

(** Python's built-in [hash] on the values that [Sentence.__hash__] passes
    to it: a frozenset of cells, an integer, and a tuple of two hashed
    components.  The built-in is not part of the program; it is an
    interface here. *)
Class PyHash := {
  hash_frozenset : gset cell → Z;
  hash_int : Z → Z;
  hash_tuple : Z → Z → Z
}.

(** [Sentence.__hash__]: [hash((frozenset(self.cells), self.count))]. *)
Definition Sentence_hash `{PyHash} (s : Sentence) : Z :=
  hash_tuple (hash_frozenset (cells s)) (hash_int (count s)).

(** ** Iteration over a Python set

    The order in which a Python set yields its elements is not fixed by the
    language.  The model takes it as an interface: any enumeration of the
    members, each exactly once.  The interface gives one order to a set
    whatever the way it was built, while the order of a CPython set also
    depends on that; the properties below are stated of one iteration and
    hold for every order, and none compares the iterations of two sets
    that were built apart. *)
Class SetIter := {
  iter : gset cell → list cell;
  iter_perm : ∀ s, iter s ≡ₚ elements s
}.

(** One such order, used to evaluate the model. *)
#[local] Instance elements_iter : SetIter :=
  {| iter := elements; iter_perm := λ s, reflexivity (elements s) |}.

(** What a call does: it returns a value or raises an exception. *)
Inductive exn := StopIteration.
Inductive outcome (A : Type) :=
  | Return (a : A)
  | Raise (e : exn).
Arguments Return {A} a.
Arguments Raise {A} e.

(** [range(lo, hi)]. *)
Definition range (lo hi : Z) : list Z :=
  (λ k : nat, lo + Z.of_nat k) <$> seq 0 (Z.to_nat (hi - lo)).

(** [enumerate(l)]. *)
Definition enumerate {A} (l : list A) : list (nat * A) :=
  combine (seq 0 (length l)) l.

(** ** The board

    [class Minesweeper].  [__init__] sets [board[i][j]] to [True] for
    exactly the cells [(i, j)] it adds to [self.mines], so the board is
    read through that set. *)
Record Minesweeper := mkGame {
  g_height : Z;
  g_width : Z;
  g_mines : gset cell
}.

Module Game.

(** The read [self.board[i][j]] of [nearby_mines], which comes after the
    bounds test: on the board the entry is [True] exactly at the cells of
    [mines].  (The method [is_mine], which reads the board for any index,
    is [Board.is_mine] below.) *)
Definition is_mine (g : Minesweeper) (c : cell) : bool :=
  bool_decide (c ∈ g_mines g).

(** The bounds test of [nearby_mines]:
    [0 <= i < self.height and 0 <= j < self.width]. *)
Definition in_bounds (g : Minesweeper) (c : cell) : bool :=
  (0 <=? c.1) && (c.1 <? g_height g) && (0 <=? c.2) && (c.2 <? g_width g).

(** The body of the loops of [nearby_mines] for one [(i, j)]. *)
Definition nearby_step (g : Minesweeper) (c : cell) (n : Z) (i j : Z) : Z :=
  if bool_decide ((i, j) = c) then n
  else if in_bounds g (i, j)
       then if is_mine g (i, j) then n + 1 else n
       else n.

(** [Minesweeper.nearby_mines]. *)
Definition nearby_mines (g : Minesweeper) (c : cell) : Z :=
  foldl (λ acc i,
           foldl (λ acc j, nearby_step g c acc i j)
                 acc (range (c.2 - 1) (c.2 + 2)))
        0 (range (c.1 - 1) (c.1 + 2)).

End Game.

(** ** The agent *)

(** [class MinesweeperAI]: its attributes. *)
Record MinesweeperAI := mkAI {
  height : Z;
  width : Z;
  moves_made : gset cell;
  mines : gset cell;
  safes : gset cell;
  knowledge : list Sentence
}.

Definition set_moves_made (m : gset cell) (ai : MinesweeperAI) :=
  mkAI (height ai) (width ai) m (mines ai) (safes ai) (knowledge ai).
Definition set_mines (m : gset cell) (ai : MinesweeperAI) :=
  mkAI (height ai) (width ai) (moves_made ai) m (safes ai) (knowledge ai).
Definition set_safes (m : gset cell) (ai : MinesweeperAI) :=
  mkAI (height ai) (width ai) (moves_made ai) (mines ai) m (knowledge ai).
Definition set_knowledge (k : list Sentence) (ai : MinesweeperAI) :=
  mkAI (height ai) (width ai) (moves_made ai) (mines ai) (safes ai) k.

(** [x in l] for a list of sentences: some element compares equal. *)
Definition sentence_in (s : Sentence) (l : list Sentence) : bool :=
  existsb (λ e, SentenceOps.eq e s) l.

(** A [while] loop with a bound on the number of iterations. *)
Fixpoint while_loop {S : Type} (fuel : nat) (cond : S → bool)
    (body : S → S) (s : S) : option S :=
  match fuel with
  | O => None
  | Datatypes.S f => if cond s then while_loop f cond body (body s) else Some s
  end.

Module AI.

(** [MinesweeperAI.__init__(height, width)]. *)
Definition init (h w : Z) : MinesweeperAI := mkAI h w ∅ ∅ ∅ [].

(** [MinesweeperAI.mark_mine]. *)
Definition mark_mine (c : cell) (ai : MinesweeperAI) : MinesweeperAI :=
  set_knowledge (SentenceOps.mark_mine c <$> knowledge ai)
    (set_mines (mines ai ∪ {[ c ]}) ai).

(** [MinesweeperAI.mark_safe]. *)
Definition mark_safe (c : cell) (ai : MinesweeperAI) : MinesweeperAI :=
  set_knowledge (SentenceOps.mark_safe c <$> knowledge ai)
    (set_safes (safes ai ∪ {[ c ]}) ai).

(** The test "current cell in grid" of [addNewStement], on the cell
    [(i + di, j + dj)]:
    [(i+di) >= 0 and (i+di) < self.width and
     (j+dj) >= 0 and (j+dj) < self.height]. *)
Definition in_grid (ai : MinesweeperAI) (d : cell) : bool :=
  (0 <=? d.1) && (d.1 <? width ai) && (0 <=? d.2) && (d.2 <? height ai).

(** The body of the two nested loops of [addNewStement], for one pair
    [(di, dj)]; the accumulator is [(cellsNewStement, count)]. *)
Definition neighbour_step (ai : MinesweeperAI) (i j : Z)
    (acc : gset cell * Z) (di dj : Z) : gset cell * Z :=
  if (di =? 0) && (dj =? 0) then acc
  else if bool_decide ((i + di, j + dj) ∈ safes ai) then acc
  else if bool_decide ((i + di, j + dj) ∈ mines ai) then (acc.1, acc.2 - 1)
  else if in_grid ai (i + di, j + dj)
       then (acc.1 ∪ {[ (i + di, j + dj) ]}, acc.2)
       else acc.

(** The two loops of [addNewStement]. *)
Definition neighbour_scan (ai : MinesweeperAI) (c : cell) (n : Z)
    : gset cell * Z :=
  foldl (λ acc di,
           foldl (λ acc dj, neighbour_step ai c.1 c.2 acc di dj)
                 acc (range (-1) 2))
        (∅, n) (range (-1) 2).

(** [MinesweeperAI.addNewStement]. *)
Definition addNewStement (c : cell) (n : Z) (ai : MinesweeperAI)
    : MinesweeperAI :=
  let r := neighbour_scan ai c n in
  set_knowledge (knowledge ai ++ [mkSentence r.1 r.2]) ai.

(** The local variables of [update_knowledge]. *)
Record scan := mkScan {
  change : bool;
  sc_safes : gset cell;
  sc_mines : gset cell;
  newSafes : gset cell
}.

(** The body of [while change:] in [update_knowledge].  It ends with the
    assignment to [newSafes]: the statements that follow in the source
    are indented as the [while] itself, not as its body. *)
Definition scan_body (ai : MinesweeperAI) (_ : scan) : scan :=
  let r := foldl (λ acc s, (acc.1 ∪ SentenceOps.known_safes s,
                            acc.2 ∪ SentenceOps.known_mines s))
                 (∅, ∅) (knowledge ai) in
  mkScan false r.1 r.2 (r.1 ∖ safes ai).

(** [MinesweeperAI.update_knowledge].  The loop body runs once (see
    [while_change_once] below), then new safes are marked, then new
    mines, then the sentences without cells are dropped. *)
Definition update_knowledge `{SetIter} (ai : MinesweeperAI)
    : MinesweeperAI :=
  let sc := scan_body ai (mkScan true ∅ ∅ ∅) in
  let ai1 := if bool_decide (newSafes sc ≠ ∅)
             then foldl (λ a c, mark_safe c a) ai (iter (newSafes sc))
             else ai in
  let newMines := sc_mines sc ∖ mines ai1 in
  let ai2 := if bool_decide (newMines ≠ ∅)
             then foldl (λ a c, mark_mine c a) ai1 (iter newMines)
             else ai1 in
  set_knowledge
    (filter (λ s, 0 < len (cells s)) (knowledge ai2)) ai2.

(** The body of the inner loop of [checkNewStement], for the pair
    [(i, sentence)], [(j, sentenceC)]; the accumulator is
    [new_statements]. *)
Definition subtract_step (K : list Sentence) (i : nat) (sentence : Sentence)
    (new_statements : list Sentence) (jc : nat * Sentence) : list Sentence :=
  let (j, sentenceC) := jc in
  if negb (i =? j)%nat && bool_decide (cells sentence ⊆ cells sentenceC)
  then
    let difSentenceCells := cells sentenceC ∖ cells sentence in
    let difSentenceCount := count sentenceC - count sentence in
    let new_sentence := mkSentence difSentenceCells difSentenceCount in
    let new_sentence :=
      if 0 <=? difSentenceCount
      then mkSentence difSentenceCells difSentenceCount
      else new_sentence in
    if negb (sentence_in new_sentence new_statements)
       && negb (sentence_in new_sentence K)
    then new_statements ++ [new_sentence]
    else new_statements
  else new_statements.

(** The list [new_statements] built by [checkNewStement]. *)
Definition new_statements (K : list Sentence) : list Sentence :=
  foldl (λ acc (ic : nat * Sentence),
           foldl (subtract_step K ic.1 ic.2) acc (enumerate K))
        [] (enumerate K).

(** [MinesweeperAI.checkNewStement]. *)
Definition checkNewStement (ai : MinesweeperAI) : MinesweeperAI :=
  set_knowledge (knowledge ai ++ new_statements (knowledge ai)) ai.

(** [MinesweeperAI.add_knowledge]. *)
Definition add_knowledge `{SetIter} (c : cell) (n : Z)
    (ai : MinesweeperAI) : MinesweeperAI :=
  let ai := set_moves_made (moves_made ai ∪ {[ c ]}) ai in
  let ai := mark_safe c ai in
  let ai := addNewStement c n ai in
  let ai := update_knowledge ai in
  let ai := checkNewStement ai in
  update_knowledge ai.

(** [next(iter(move))]: the first element the iterator yields;
    [StopIteration] when it yields none. *)
Definition next_iter `{SetIter} (move : gset cell) : outcome cell :=
  match iter move with
  | c :: _ => Return c
  | [] => Raise StopIteration
  end.

(** The end of both move-selection methods:
    [if len(move) > 0: move = next(iter(move)); return move] and
    [return None] otherwise. *)
Definition first_or_none `{SetIter} (move : gset cell)
    : outcome (option cell) :=
  if 0 <? len move
  then match next_iter move with
       | Return c => Return (Some c)
       | Raise e => Raise e
       end
  else Return None.

(** [MinesweeperAI.make_safe_move]: the result and the agent after the
    call. *)
Definition make_safe_move `{SetIter} (ai : MinesweeperAI)
    : outcome (option cell) * MinesweeperAI :=
  let move := safes ai ∖ moves_made ai ∖ mines ai in
  (first_or_none move, ai).

(** The set [allcells] built by the loops of [make_random_move]. *)
Definition allcells (ai : MinesweeperAI) : gset cell :=
  foldl (λ acc i, foldl (λ acc j, acc ∪ {[ (i, j) ]}) acc
                        (range 0 (height ai)))
        ∅ (range 0 (width ai)).

(** [MinesweeperAI.make_random_move]. *)
Definition make_random_move `{SetIter} (ai : MinesweeperAI)
    : outcome (option cell) * MinesweeperAI :=
  let move := (allcells ai ∖ mines ai) ∖ moves_made ai in
  (first_or_none move, ai).

(** A sequence of calls of [add_knowledge], in order. *)
Definition observe `{SetIter} (obs : list (cell * Z))
    (ai : MinesweeperAI) : MinesweeperAI :=
  foldl (λ a o, add_knowledge o.1 o.2 a) ai obs.

End AI.


(** ** Closed forms

    What the loops of the agent compute, written without loops.  The
    lemmas of the next part relate them to the definitions above. *)

(** A sentence after [mark_safe] was called for every cell of [X]. *)
Definition strike_safe (X : gset cell) (s : Sentence) : Sentence :=
  mkSentence (cells s ∖ X) (count s).

(** A sentence after [mark_mine] was called for every cell of [X]. *)
Definition strike_mine (X : gset cell) (s : Sentence) : Sentence :=
  mkSentence (cells s ∖ X) (count s - len (cells s ∩ X)).

(** The sets [safes] and [mines] collected by the scan of
    [update_knowledge]. *)
Definition found_safes (K : list Sentence) : gset cell :=
  ⋃ (SentenceOps.known_safes <$> K).
Definition found_mines (K : list Sentence) : gset cell :=
  ⋃ (SentenceOps.known_mines <$> K).

(** The agent after one call of [update_knowledge]. *)
Definition settle (ai : MinesweeperAI) : MinesweeperAI :=
  let nS := found_safes (knowledge ai) ∖ safes ai in
  let nM := found_mines (knowledge ai) ∖ mines ai in
  mkAI (height ai) (width ai) (moves_made ai)
       (mines ai ∪ nM) (safes ai ∪ nS)
       (filter (λ s, 0 < len (cells s))
               (strike_mine nM <$> (strike_safe nS <$> knowledge ai))).

(** The pairs [(di, dj)] in the order the nested loops over
    [range(-1, 2)] visit them. *)
Definition offsets : list (Z * Z) :=
  di ← range (-1) 2; (λ dj, (di, dj)) <$> range (-1) 2.

Definition shift (c d : cell) : cell := (c.1 + d.1, c.2 + d.2).

(** The nine cells within one row and one column of [c], and the eight
    of them other than [c]. *)
Definition block (c : cell) : gset cell := list_to_set (shift c <$> offsets).
Definition neighbours (c : cell) : gset cell := block c ∖ {[ c ]}.

(** The cells [addNewStement] puts in the new sentence, and those for
    which it lowers the count. *)
Definition added (ai : MinesweeperAI) (c d : cell) : Prop :=
  d ≠ c ∧ (d ∉ safes ai) ∧ (d ∉ mines ai) ∧ AI.in_grid ai d = true.
Definition discounted (ai : MinesweeperAI) (c d : cell) : Prop :=
  d ≠ c ∧ (d ∉ safes ai) ∧ d ∈ mines ai.

(** The cells [nearby_mines] counts. *)
Definition counted (g : Minesweeper) (c d : cell) : Prop :=
  d ≠ c ∧ Game.in_bounds g d = true ∧ d ∈ g_mines g.

#[local] Instance added_dec ai c d : Decision (added ai c d).
Proof. unfold added. apply _. Defined.
#[local] Instance discounted_dec ai c d : Decision (discounted ai c d).
Proof. unfold discounted. apply _. Defined.
#[local] Instance counted_dec g c d : Decision (counted g c d).
Proof. unfold counted. apply _. Defined.

(** The sentence [addNewStement] appends. *)
Definition new_sentence (ai : MinesweeperAI) (c : cell) (n : Z) : Sentence :=
  mkSentence
    (filter (λ d, AI.in_grid ai d) (neighbours c ∖ safes ai ∖ mines ai))
    (n - len ((neighbours c ∩ mines ai) ∖ safes ai)).

(** ** Agreement with a placement of mines

    [sound M ai]: what the agent holds is true of the placement [M].  The
    cells of [M] are cells the agent takes to be in the grid, no cell of
    [M] is in [safes], every cell of [mines] is in [M], and every sentence
    counts the cells of [M] among its cells. *)
Record sound (M : gset cell) (ai : MinesweeperAI) : Prop := mkSound {
  sound_grid : ∀ d, d ∈ M → AI.in_grid ai d = true;
  sound_safes : safes ai ## M;
  sound_mines : mines ai ⊆ M;
  sound_knowledge : Forall (λ s, count s = len (cells s ∩ M)) (knowledge ai)
}.

(** A report [(cell, count)] that is true of the board [g]: the cell is
    not a mine and the count is the one [nearby_mines] gives. *)
Definition truthful (g : Minesweeper) (o : cell * Z) : Prop :=
  (o.1 ∉ g_mines g) ∧ o.2 = Game.nearby_mines g o.1.

(** Every mine of [g] is on its board, as after [Minesweeper.__init__]. *)
Definition mines_on_board (g : Minesweeper) : Prop :=
  ∀ d, d ∈ g_mines g → Game.in_bounds g d = true.

(** The three sets of the agent [ai] are included in those of [ai']. *)
Definition grows (ai ai' : MinesweeperAI) : Prop :=
  moves_made ai ⊆ moves_made ai'
  ∧ safes ai ⊆ safes ai'
  ∧ mines ai ⊆ mines ai'.

(** ** Further notions

    [adjacent c d]: the cell [d] is within one row and one column of [c]
    and is not [c]. *)
Definition adjacent (c d : cell) : Prop :=
  d ≠ c ∧ c.1 - 1 <= d.1 <= c.1 + 1 ∧ c.2 - 1 <= d.2 <= c.2 + 1.

#[local] Instance adjacent_dec c d : Decision (adjacent c d).
Proof. unfold adjacent. apply _. Defined.

(** [tidy ai]: no sentence mentions a cell that is already classified,
    every cell of a sentence and every known mine passes the grid test of
    the agent, and every move made is a known safe. *)
Record tidy (ai : MinesweeperAI) : Prop := mkTidy {
  tidy_knowledge :
    Forall (λ s, cells s ## safes ai ∪ mines ai
                 ∧ ∀ d, d ∈ cells s → AI.in_grid ai d = true)
           (knowledge ai);
  tidy_moves : moves_made ai ⊆ safes ai;
  tidy_mines : ∀ d, d ∈ mines ai → AI.in_grid ai d = true
}.

#[local] Instance Sentence_eq_dec : EqDecision Sentence.
Proof. solve_decision. Defined.

(** [derived K s]: the sentence [s] is what the subset rule gives for two
    sentences at different places of the list [K], the cells of the first
    being among the cells of the second. *)
Definition derived (K : list Sentence) (s : Sentence) : Prop :=
  ∃ (i j : nat) (a b : Sentence),
    i ≠ j ∧ K !! i = Some a ∧ K !! j = Some b ∧ cells a ⊆ cells b
    ∧ s = mkSentence (cells b ∖ cells a) (count b - count a).

(** ** The board as [class Minesweeper] stores it

    The attributes of a [Minesweeper] object: the sizes, the set [mines],
    the list of rows [board] and the set [mines_found]. *)
Record MinesweeperState := mkState {
  st_height : Z;
  st_width : Z;
  st_mines : gset cell;
  st_board : list (list bool);
  st_mines_found : gset cell
}.

(** The exceptions of this part of the program, and what running
    [__init__] on a finite supply of random numbers gives: the object, an
    exception, or a loop still running when the supply ends. *)
Inductive fault := ValueError | IndexError.
Inductive run (A : Type) :=
  | Finished (a : A)
  | Failed (e : fault)
  | OutOfRandom.
Arguments Finished {A} a.
Arguments Failed {A} e.
Arguments OutOfRandom {A}.

(** The place in a list of length [n] that the Python index [i] denotes:
    [i] itself from [0] to [n - 1], [n + i] from [-n] to [-1], and none
    (an [IndexError]) otherwise. *)
Definition norm_index (n : nat) (i : Z) : option nat :=
  if 0 <=? i
  then if i <? Z.of_nat n then Some (Z.to_nat i) else None
  else if 0 <=? Z.of_nat n + i then Some (Z.to_nat (Z.of_nat n + i))
       else None.

(** [l[i]] and [l[i] = x]. *)
Definition getitem {A} (l : list A) (i : Z) : option A :=
  k ← norm_index (length l) i; l !! k.
Definition setitem {A} (l : list A) (i : Z) (x : A) : option (list A) :=
  k ← norm_index (length l) i; Some (<[ k := x ]> l).

Module Board.

(** The loops of [__init__] that build [board]: [height] rows of [width]
    times [False]. *)
Definition empty_board (height width : Z) : list (list bool) :=
  foldl (λ board _,
           board ++ [foldl (λ row _, row ++ [false]) [] (range 0 width)])
        [] (range 0 height).

(** [self.board[i][j]] and [self.board[i][j] = True]. *)
Definition read (board : list (list bool)) (i j : Z) : option bool :=
  row ← getitem board i; getitem row j.
Definition write_true (board : list (list bool)) (i j : Z)
    : option (list (list bool)) :=
  row ← getitem board i; row' ← setitem row j true; setitem board i row'.

(** The loop [while len(self.mines) != mines] of [__init__].  The list
    [rs] supplies the random numbers: [random.randrange(n)] raises
    [ValueError] when [n <= 0] and otherwise takes the next number [r] of
    the supply and returns [r mod n]. *)
Fixpoint place_mines (height width mines : Z) (ms : gset cell)
    (board : list (list bool)) (rs : list Z) {struct rs}
    : run (gset cell * list (list bool)) :=
  if len ms =? mines then Finished (ms, board)
  else if height <=? 0 then Failed ValueError
  else match rs with
       | [] => OutOfRandom
       | r1 :: rs1 =>
         let i := r1 mod height in
         if width <=? 0 then Failed ValueError
         else match rs1 with
              | [] => OutOfRandom
              | r2 :: rs2 =>
                let j := r2 mod width in
                match read board i j with
                | None => Failed IndexError
                | Some true => place_mines height width mines ms board rs2
                | Some false =>
                  match write_true board i j with
                  | None => Failed IndexError
                  | Some board' =>
                    place_mines height width mines (ms ∪ {[ (i, j) ]})
                      board' rs2
                  end
                end
              end
       end.

(** [Minesweeper.__init__(height, width, mines)]. *)
Definition init (height width mines : Z) (rs : list Z)
    : run MinesweeperState :=
  match place_mines height width mines ∅ (empty_board height width) rs with
  | Finished (ms, board) => Finished (mkState height width ms board ∅)
  | Failed e => Failed e
  | OutOfRandom => OutOfRandom
  end.

(** [Minesweeper.is_mine]; [None] is an [IndexError]. *)
Definition is_mine (st : MinesweeperState) (c : cell) : option bool :=
  read (st_board st) c.1 c.2.

(** The body of the loops of [nearby_mines] for one [(i, j)]; the count
    is [None] once a read of the board has raised. *)
Definition nearby_step (st : MinesweeperState) (c : cell) (n : option Z)
    (i j : Z) : option Z :=
  n ← n;
  if bool_decide ((i, j) = c) then Some n
  else if (0 <=? i) && (i <? st_height st) && (0 <=? j) && (j <? st_width st)
       then b ← read (st_board st) i j; Some (if b : bool then n + 1 else n)
       else Some n.

(** [Minesweeper.nearby_mines], reading [board]. *)
Definition nearby_mines (st : MinesweeperState) (c : cell) : option Z :=
  foldl (λ acc i,
           foldl (λ acc j, nearby_step st c acc i j)
                 acc (range (c.2 - 1) (c.2 + 2)))
        (Some 0) (range (c.1 - 1) (c.1 + 2)).

(** [Minesweeper.won]. *)
Definition won (st : MinesweeperState) : bool :=
  bool_decide (st_mines_found st = st_mines st).

End Board.

(** The cells the loop of [__init__] draws from the supply [rs], in
    order. *)
Fixpoint draws (height width : Z) (rs : list Z) : list cell :=
  match rs with
  | r1 :: r2 :: rs2 => (r1 mod height, r2 mod width) :: draws height width rs2
  | _ => []
  end.

(** [shaped h w ms board]: the board has [h] rows of [w] entries, the
    entry of row [i] and column [j] tells whether [(i, j)] is in [ms], and
    every cell of [ms] is on the board. *)
Record shaped (h w : Z) (ms : gset cell) (board : list (list bool)) : Prop :=
  mkShaped {
  shaped_rows : Z.of_nat (length board) = Z.max 0 h;
  shaped_cols : Forall (λ row, Z.of_nat (length row) = Z.max 0 w) board;
  shaped_read : ∀ i j, 0 <= i < h → 0 <= j < w →
      Board.read board i j = Some (bool_decide ((i, j) ∈ ms));
  shaped_mines : ∀ d, d ∈ ms → 0 <= d.1 < h ∧ 0 <= d.2 < w
}.

(** ** Printed output

    Standard output, as far as [print] is concerned: the lines ended so
    far and the characters written since the last end of line.  A string
    is a list of characters. *)
From Stdlib Require Ascii.

Record stdout := mkOut {
  out_lines : list (list Ascii.ascii);
  out_pending : list Ascii.ascii
}.

Module Console.

(** [print(s)]: writes [s] and ends the line. *)
Definition print (s : list Ascii.ascii) (o : stdout) : stdout :=
  mkOut (out_lines o ++ [out_pending o ++ s]) [].

(** [print(s, end="")]: writes [s]. *)
Definition print_noend (s : list Ascii.ascii) (o : stdout) : stdout :=
  mkOut (out_lines o) (out_pending o ++ s).

(** [s * n] on a string: [n] copies of [s], none when [n <= 0]. *)
Definition str_mul (s : list Ascii.ascii) (n : Z) : list Ascii.ascii :=
  mjoin (replicate (Z.to_nat n) s).

Import Ascii.
Local Open Scope char_scope.

(** The character of the rules between the rows. *)
Definition dash : Ascii.ascii := "-".

(** The string ["--" * self.width + "-"]. *)
Definition rule (st : MinesweeperState) : list Ascii.ascii :=
  str_mul ["-"; "-"] (st_width st) ++ ["-"].

(** The body of the inner loop of [Minesweeper.print] for one [j]; the
    output is [None] once a read of the board has raised. *)
Definition print_cell (st : MinesweeperState) (i : Z) (o : option stdout)
    (j : Z) : option stdout :=
  o ← o;
  b ← Board.read (st_board st) i j;
  Some (if b : bool
        then print_noend ["|"; "X"] o
        else print_noend ["|"; " "] o).

(** The body of the outer loop of [Minesweeper.print] for one [i]. *)
Definition print_row (st : MinesweeperState) (o : option stdout) (i : Z)
    : option stdout :=
  o ← o;
  o ← foldl (print_cell st i) (Some (print (rule st) o))
            (range 0 (st_width st));
  Some (print ["|"] o).

(** [Minesweeper.print]. *)
Definition print_board (st : MinesweeperState) (o : stdout) : option stdout :=
  o ← foldl (print_row st) (Some o) (range 0 (st_height st));
  Some (print (rule st) o).

(** The character shown for a cell, and the line shown for a row. *)
Definition mark (ms : gset cell) (d : cell) : Ascii.ascii :=
  if bool_decide (d ∈ ms) then "X" else " ".
Definition row_line (st : MinesweeperState) (i : Z) : list Ascii.ascii :=
  (j ← range 0 (st_width st); ["|"; mark (st_mines st) (i, j)]) ++ ["|"].

End Console.

(** * Properties *)

(** ** Sentences *)

Section sentence_facts.
Implicit Types (s o : Sentence) (c : cell).

Lemma len_nonneg (X : gset cell) : 0 <= len X.
Proof. unfold len. lia. Qed.

Lemma len_pos_iff (X : gset cell) : 0 < len X ↔ X ≠ ∅.
Proof.
  unfold len. split.
  - intros Hpos ->. rewrite size_empty in Hpos. lia.
  - intros Hne. assert (size X ≠ 0%nat); [|lia].
    apply size_non_empty_iff. intros He. apply Hne. by apply leibniz_equiv.
Qed.

Lemma len_empty : len ∅ = 0.
Proof. unfold len. by rewrite size_empty. Qed.

Lemma eq_true_iff s o :
  SentenceOps.eq s o = true ↔ cells s = cells o ∧ count s = count o.
Proof.
  unfold SentenceOps.eq.
  rewrite andb_true_iff, bool_decide_eq_true, Z.eqb_eq. done.
Qed.

Lemma eq_leibniz s o : SentenceOps.eq s o = true ↔ s = o.
Proof.
  rewrite eq_true_iff. destruct s, o; simpl. split.
  - by intros [-> ->].
  - by intros [= -> ->].
Qed.

End sentence_facts.

(** C4.  [known_mines] returns the whole cell set when the count equals the
    number of cells and there is at least one cell, and the empty set
    otherwise; [known_safes] returns the whole cell set when the count is
    zero and the empty set otherwise; a sentence with
    [0 < count < |cells|] gives the empty set for both. *)
Theorem known_mines_safes_spec (s : Sentence) :
  SentenceOps.known_mines s
    = (if bool_decide (count s = len (cells s) ∧ cells s ≠ ∅)
       then cells s else ∅)
  ∧ SentenceOps.known_safes s
    = (if bool_decide (count s = 0) then cells s else ∅)
  ∧ (cells s = ∅ → SentenceOps.known_mines s = ∅)
  ∧ (0 < count s < len (cells s) →
     SentenceOps.known_mines s = ∅ ∧ SentenceOps.known_safes s = ∅).
Proof.
  unfold SentenceOps.known_mines, SentenceOps.known_safes.
  split_and!; [| | |intros ?; split].
  - case_bool_decide as Hd.
    + destruct Hd as [Hc Hne]. apply len_pos_iff in Hne.
      rewrite Hc, Z.eqb_refl. simpl.
      by apply Z.ltb_lt in Hne as ->.
    + destruct (len (cells s) =? count s) eqn:He; [|done].
      destruct (0 <? len (cells s)) eqn:Hp; [|done].
      apply Z.eqb_eq in He. apply Z.ltb_lt, len_pos_iff in Hp.
      by destruct Hd.
  - case_bool_decide as Hd.
    + by rewrite Hd.
    + by apply Z.eqb_neq in Hd as ->.
  - intros ->. rewrite len_empty. by rewrite andb_false_r.
  - assert ((len (cells s) =? count s) = false) as -> by (apply Z.eqb_neq; lia).
    done.
  - assert ((count s =? 0) = false) as -> by (apply Z.eqb_neq; lia).
    done.
Qed.

(** C6.  Two sentences compare equal exactly when they have the same cells
    (as sets: the order in which the cells were supplied plays no part) and
    the same count; sentences that compare equal have the same hash and are
    not told apart by a membership test on a list of sentences. *)
Theorem sentence_eq_hash `{PyHash} (s o : Sentence) :
  (SentenceOps.eq s o = true ↔ (cells s ≡ cells o) ∧ count s = count o)
  ∧ (SentenceOps.eq s o = true → Sentence_hash s = Sentence_hash o)
  ∧ (SentenceOps.eq s o = true →
     ∀ l, sentence_in s l = sentence_in o l)
  ∧ (∀ (l1 l2 : list cell) (n : Z),
       (∀ c, c ∈ l1 ↔ c ∈ l2) →
       SentenceOps.eq (SentenceOps.init l1 n) (SentenceOps.init l2 n) = true).
Proof.
  split_and!.
  - rewrite eq_true_iff. split.
    + intros [Hc Hn]. by rewrite Hc.
    + intros [Hc Hn]. split; [|done]. by apply leibniz_equiv.
  - intros [Hc Hn]%eq_true_iff. unfold Sentence_hash. by rewrite Hc, Hn.
  - intros ->%eq_leibniz. done.
  - intros l1 l2 n Hl. apply eq_true_iff. simpl. split; [|done].
    apply set_eq. intros c. rewrite !elem_of_list_to_set. apply Hl.
Qed.

(** C9.  [mark_mine] removes the cell and lowers the count by one when the
    cell is a member, [mark_safe] removes it and keeps the count; both
    return the sentence unchanged when the cell is not a member, and a
    second call with the same cell changes nothing more. *)
Theorem sentence_mark_spec (s : Sentence) (c : cell) :
  (c ∈ cells s →
     SentenceOps.mark_mine c s = mkSentence (cells s ∖ {[ c ]}) (count s - 1))
  ∧ (c ∉ cells s → SentenceOps.mark_mine c s = s)
  ∧ (c ∈ cells s →
     SentenceOps.mark_safe c s = mkSentence (cells s ∖ {[ c ]}) (count s))
  ∧ (c ∉ cells s → SentenceOps.mark_safe c s = s)
  ∧ SentenceOps.mark_mine c (SentenceOps.mark_mine c s)
    = SentenceOps.mark_mine c s
  ∧ SentenceOps.mark_safe c (SentenceOps.mark_safe c s)
    = SentenceOps.mark_safe c s.
Proof.
  unfold SentenceOps.mark_mine, SentenceOps.mark_safe.
  split_and!.
  - intros Hin. by rewrite bool_decide_eq_true_2.
  - intros Hin. by rewrite bool_decide_eq_false_2.
  - intros Hin. by rewrite bool_decide_eq_true_2.
  - intros Hin. by rewrite bool_decide_eq_false_2.
  - destruct (decide (c ∈ cells s)) as [Hin|Hin].
    + rewrite (bool_decide_eq_true_2 _ Hin). simpl.
      rewrite bool_decide_eq_false_2; [done |].
      intros [_ Hn]%elem_of_difference. apply Hn. by apply elem_of_singleton.
    + by rewrite !(bool_decide_eq_false_2 _ Hin).
  - destruct (decide (c ∈ cells s)) as [Hin|Hin].
    + rewrite (bool_decide_eq_true_2 _ Hin). simpl.
      rewrite bool_decide_eq_false_2; [done |].
      intros [_ Hn]%elem_of_difference. apply Hn. by apply elem_of_singleton.
    + by rewrite !(bool_decide_eq_false_2 _ Hin).
Qed.

(** ** Marking cells *)

Section marking.
Implicit Types (s : Sentence) (c : cell) (X : gset cell)
  (ai : MinesweeperAI) (l : list cell).

Lemma strike_safe_empty s : strike_safe ∅ s = s.
Proof.
  destruct s as [cs n]. unfold strike_safe. simpl. f_equal. set_solver.
Qed.

Lemma strike_mine_empty s : strike_mine ∅ s = s.
Proof.
  destruct s as [cs n]. unfold strike_mine. simpl.
  assert (cs ∩ ∅ = ∅) as -> by set_solver.
  rewrite len_empty. f_equal; [set_solver | lia].
Qed.

Lemma strike_safe_mark c X s :
  strike_safe X (SentenceOps.mark_safe c s) = strike_safe ({[ c ]} ∪ X) s.
Proof.
  unfold SentenceOps.mark_safe, strike_safe.
  case_bool_decide as Hin; simpl; f_equal; set_solver.
Qed.

Lemma len_insert_fresh c X : c ∉ X → len ({[ c ]} ∪ X) = 1 + len X.
Proof.
  intros Hc. unfold len. rewrite size_union by set_solver.
  rewrite size_singleton. lia.
Qed.

Lemma strike_mine_mark c X s :
  c ∉ X →
  strike_mine X (SentenceOps.mark_mine c s) = strike_mine ({[ c ]} ∪ X) s.
Proof.
  intros Hc. unfold SentenceOps.mark_mine, strike_mine.
  case_bool_decide as Hin; simpl.
  - f_equal; [set_solver|].
    assert (cells s ∩ ({[ c ]} ∪ X)
            = {[ c ]} ∪ (cells s ∖ {[ c ]}) ∩ X) as -> by set_solver.
    rewrite len_insert_fresh by set_solver. lia.
  - f_equal; [set_solver|].
    assert (cells s ∩ ({[ c ]} ∪ X) = cells s ∩ X) as -> by set_solver.
    done.
Qed.

(** The loop [for safe in newSafes: self.mark_safe(safe)]. *)
Lemma mark_safe_loop l ai :
  foldl (λ a c, AI.mark_safe c a) ai l
  = set_knowledge (strike_safe (list_to_set l) <$> knowledge ai)
      (set_safes (safes ai ∪ list_to_set l) ai).
Proof.
  revert ai. induction l as [|c l IH]; intros ai; simpl.
  - destruct ai as [h w mv mn sf K]. unfold set_knowledge, set_safes. simpl.
    f_equal; [set_solver|].
    rewrite <- (list_fmap_id K) at 1. apply list_fmap_ext.
    intros ? s _. by rewrite strike_safe_empty.
  - rewrite IH. destruct ai as [h w mv mn sf K].
    unfold set_knowledge, set_safes, AI.mark_safe. simpl.
    f_equal; [set_solver|].
    rewrite <- list_fmap_compose. apply list_fmap_ext.
    intros ? s _. simpl. apply strike_safe_mark.
Qed.

(** The loop [for mine in newMines: self.mark_mine(mine)]. *)
Lemma mark_mine_loop l ai :
  NoDup l →
  foldl (λ a c, AI.mark_mine c a) ai l
  = set_knowledge (strike_mine (list_to_set l) <$> knowledge ai)
      (set_mines (mines ai ∪ list_to_set l) ai).
Proof.
  intros Hnd. revert ai. induction Hnd as [|c l Hc Hnd IH]; intros ai; simpl.
  - destruct ai as [h w mv mn sf K]. unfold set_knowledge, set_mines. simpl.
    f_equal; [set_solver|].
    rewrite <- (list_fmap_id K) at 1. apply list_fmap_ext.
    intros ? s _. by rewrite strike_mine_empty.
  - rewrite IH. destruct ai as [h w mv mn sf K].
    unfold set_knowledge, set_mines, AI.mark_mine. simpl.
    f_equal; [set_solver|].
    rewrite <- list_fmap_compose. apply list_fmap_ext.
    intros ? s _. simpl. apply strike_mine_mark.
    by rewrite elem_of_list_to_set.
Qed.

Lemma iter_NoDup `{SetIter} X : NoDup (iter X).
Proof. rewrite iter_perm. apply NoDup_elements. Qed.

Lemma iter_to_set `{SetIter} X : list_to_set (iter X) = X.
Proof.
  apply set_eq. intros c.
  rewrite elem_of_list_to_set, iter_perm. apply elem_of_elements.
Qed.

Lemma elem_of_iter `{SetIter} X c : c ∈ iter X ↔ c ∈ X.
Proof. rewrite iter_perm. apply elem_of_elements. Qed.

End marking.

(** ** One call of [update_knowledge] *)

Section update.
Context `{SetIter}.
Implicit Types (ai : MinesweeperAI) (K : list Sentence).

(** The scan collects the unions of the trivial conclusions. *)
Lemma scan_fold K (A B : gset cell) :
  foldl (λ acc s, (acc.1 ∪ SentenceOps.known_safes s,
                   acc.2 ∪ SentenceOps.known_mines s)) (A, B) K
  = (A ∪ found_safes K, B ∪ found_mines K).
Proof.
  revert A B. induction K as [|s K IH]; intros A B; simpl.
  - unfold found_safes, found_mines. simpl. f_equal; set_solver.
  - rewrite IH. unfold found_safes, found_mines. simpl. f_equal; set_solver.
Qed.

Lemma scan_body_spec ai sc :
  AI.scan_body ai sc
  = AI.mkScan false (found_safes (knowledge ai)) (found_mines (knowledge ai))
      (found_safes (knowledge ai) ∖ safes ai).
Proof.
  unfold AI.scan_body. rewrite scan_fold. simpl.
  rewrite !(left_id_L ∅ (∪)). done.
Qed.

(** The [while change:] loop of [update_knowledge] runs its body once:
    the body clears [change] and nothing in it sets the flag again. *)
Lemma while_change_once ai fuel :
  (2 <= fuel)%nat →
  while_loop fuel AI.change (AI.scan_body ai) (AI.mkScan true ∅ ∅ ∅)
  = Some (AI.scan_body ai (AI.mkScan true ∅ ∅ ∅)).
Proof.
  intros Hf. destruct fuel as [|[|fuel]]; [lia | lia |].
  simpl. by rewrite scan_body_spec.
Qed.

(** The two guarded loops that follow the scan. *)
Lemma mark_safe_if (X : gset cell) ai :
  (if bool_decide (X ≠ ∅)
   then foldl (λ a c, AI.mark_safe c a) ai (iter X) else ai)
  = set_knowledge (strike_safe X <$> knowledge ai)
      (set_safes (safes ai ∪ X) ai).
Proof.
  case_bool_decide as Hne.
  - by rewrite mark_safe_loop, iter_to_set.
  - rewrite Hne. pose proof (mark_safe_loop [] ai) as E. simpl in E.
    by rewrite <- E.
Qed.

Lemma mark_mine_if (X : gset cell) ai :
  (if bool_decide (X ≠ ∅)
   then foldl (λ a c, AI.mark_mine c a) ai (iter X) else ai)
  = set_knowledge (strike_mine X <$> knowledge ai)
      (set_mines (mines ai ∪ X) ai).
Proof.
  case_bool_decide as Hne.
  - rewrite mark_mine_loop by apply iter_NoDup. by rewrite iter_to_set.
  - rewrite Hne. pose proof (mark_mine_loop [] ai NoDup_nil_2) as E.
    simpl in E. by rewrite <- E.
Qed.

(** [update_knowledge] in closed form. *)
Lemma update_knowledge_settle ai : AI.update_knowledge ai = settle ai.
Proof.
  unfold AI.update_knowledge. rewrite scan_body_spec. cbn [AI.newSafes AI.sc_mines].
  rewrite mark_safe_if, mark_mine_if. done.
Qed.

End update.

(** The agent after [update_knowledge] does not depend on the order in
    which the sets are iterated. *)
Lemma update_knowledge_iter_irrel (I1 I2 : SetIter) ai :
  @AI.update_knowledge I1 ai = @AI.update_knowledge I2 ai.
Proof. by rewrite !update_knowledge_settle. Qed.

Lemma add_knowledge_iter_irrel (I1 I2 : SetIter) c n ai :
  @AI.add_knowledge I1 c n ai = @AI.add_knowledge I2 c n ai.
Proof. unfold AI.add_knowledge. by rewrite !update_knowledge_settle. Qed.

Lemma observe_iter_irrel (I1 I2 : SetIter) obs ai :
  @AI.observe I1 obs ai = @AI.observe I2 obs ai.
Proof.
  unfold AI.observe. revert ai.
  induction obs as [|o obs IH]; intros ai; simpl; [done|].
  rewrite IH. f_equal. apply add_knowledge_iter_irrel.
Qed.

(** ** Loops *)

Section loops.
Context {A B C : Type}.

(** Two nested [for] loops are one loop over the pairs. *)
Lemma nested_foldl (F : A → B → C → A) (a : A) (l1 : list B) (l2 : list C) :
  foldl (λ acc i, foldl (λ acc j, F acc i j) acc l2) a l1
  = foldl (λ acc p, F acc p.1 p.2) a (i ← l1; (λ j, (i, j)) <$> l2).
Proof.
  revert a. induction l1 as [|i l1 IH]; intros a; [done|].
  rewrite bind_cons, foldl_app, foldl_fmap. simpl. apply IH.
Qed.

(** A property kept by every step of a loop holds when the loop ends. *)
Lemma foldl_invariant (P : A → Prop) (f : A → B → A) (a : A) (l : list B) :
  P a → (∀ acc x, x ∈ l → P acc → P (f acc x)) → P (foldl f a l).
Proof.
  revert a. induction l as [|x l IH]; intros a Ha Hf; [done|].
  simpl. apply IH.
  - apply Hf; [by left | done].
  - intros acc y Hy. apply Hf. by right.
Qed.

End loops.

Lemma range_shift (k : Z) :
  range (k - 1) (k + 2) = (λ d, k + d) <$> range (-1) 2.
Proof.
  unfold range. replace (k + 2 - (k - 1)) with 3 by lia.
  simpl. f_equal; [lia|]. f_equal; [lia|]. f_equal; lia.
Qed.

Lemma NoDup_offsets : NoDup offsets.
Proof. apply (bool_decide_unpack _). by vm_compute. Qed.

Lemma shift_inj (c : cell) : Inj (=) (=) (shift c).
Proof.
  intros [d1 d2] [e1 e2]. unfold shift. simpl. intros [= H1 H2].
  f_equal; lia.
Qed.

Lemma NoDup_block_list (c : cell) : NoDup (shift c <$> offsets).
Proof. apply (NoDup_fmap_2 (shift c) (Inj0 := shift_inj c)), NoDup_offsets. Qed.

Lemma shift_centre (c : cell) (d : Z * Z) :
  shift c d = c ↔ (d.1 =? 0) && (d.2 =? 0) = true.
Proof.
  destruct c as [i j], d as [di dj]. unfold shift. simpl.
  rewrite andb_true_iff, !Z.eqb_eq. split.
  - intros [= H1 H2]. lia.
  - intros [-> ->]. f_equal; lia.
Qed.

(** Counting the elements of a list without repetition that pass a
    test, and collecting them. *)
Lemma length_filter_size (P : cell → Prop) `{!∀ d, Decision (P d)}
    (l : list cell) :
  NoDup l →
  Z.of_nat (length (filter P l)) = len (filter P (list_to_set l : gset cell)).
Proof.
  intros Hnd. unfold len. f_equal.
  rewrite <- (size_list_to_set (C := gset cell) (filter P l))
    by by apply NoDup_filter.
  f_equal. apply set_eq. intros d.
  rewrite elem_of_filter, !elem_of_list_to_set, list_elem_of_filter. done.
Qed.

Lemma list_to_set_filter (P : cell → Prop) `{!∀ d, Decision (P d)}
    (l : list cell) :
  list_to_set (filter P l) = filter P (list_to_set l : gset cell).
Proof.
  apply set_eq. intros d.
  rewrite elem_of_filter, !elem_of_list_to_set, list_elem_of_filter. done.
Qed.

(** ** The neighbours of a cell *)

Section neighbourhood.
Implicit Types (ai : MinesweeperAI) (g : Minesweeper) (c d : cell).

Lemma neighbour_step_cases ai c (acc : gset cell * Z) (o : Z * Z) :
  AI.neighbour_step ai c.1 c.2 acc o.1 o.2
  = if decide (added ai c (shift c o)) then (acc.1 ∪ {[ shift c o ]}, acc.2)
    else if decide (discounted ai c (shift c o)) then (acc.1, acc.2 - 1)
    else acc.
Proof.
  unfold AI.neighbour_step.
  change (c.1 + o.1, c.2 + o.2) with (shift c o).
  pose proof (shift_centre c o) as Hc.
  destruct (decide (added ai c (shift c o))) as [(Hne & Hs & Hm & Hg)|Ha].
  { destruct ((o.1 =? 0) && (o.2 =? 0)); [destruct Hne; by apply Hc|].
    rewrite !bool_decide_eq_false_2 by done. by rewrite Hg. }
  destruct (decide (discounted ai c (shift c o))) as [(Hne & Hs & Hm)|Hd].
  { destruct ((o.1 =? 0) && (o.2 =? 0)); [destruct Hne; by apply Hc|].
    rewrite bool_decide_eq_false_2 by done. by rewrite bool_decide_eq_true_2. }
  destruct ((o.1 =? 0) && (o.2 =? 0)) eqn:Hz; [done|].
  assert (shift c o ≠ c) as Hne.
  { intros He. apply Hc in He. congruence. }
  case_bool_decide as Hs; [done|].
  case_bool_decide as Hm; [by destruct Hd|].
  destruct (AI.in_grid ai (shift c o)) eqn:Hg; [by destruct Ha | done].
Qed.

Lemma scan_offsets ai c (l : list (Z * Z)) (X : gset cell) (n : Z) :
  foldl (λ acc o, AI.neighbour_step ai c.1 c.2 acc o.1 o.2) (X, n) l
  = (X ∪ list_to_set (filter (added ai c) (shift c <$> l)),
     n - Z.of_nat (length (filter (discounted ai c) (shift c <$> l)))).
Proof.
  revert X n. induction l as [|o l IH]; intros X n.
  - simpl. f_equal; [set_solver | lia].
  - cbn [foldl]. rewrite neighbour_step_cases. cbn [fst snd].
    rewrite fmap_cons, !filter_cons.
    destruct (decide (added ai c (shift c o))) as [Ha|Ha].
    + rewrite decide_False.
      2:{ intros (_ & _ & Hm). by destruct Ha as (_ & _ & Hnm & _). }
      rewrite IH. f_equal. set_solver.
    + destruct (decide (discounted ai c (shift c o))) as [Hd|Hd].
      * rewrite IH. f_equal. cbn [length]. lia.
      * destruct X; apply IH.
Qed.

(** [addNewStement] appends the sentence over the neighbours that are
    neither known safe nor known mines and pass the grid test, with the
    count lowered by one for every neighbour that is a known mine and not
    a known safe. *)
Lemma addNewStement_closed ai c n :
  AI.addNewStement c n ai
  = set_knowledge (knowledge ai ++ [new_sentence ai c n]) ai.
Proof.
  unfold AI.addNewStement, AI.neighbour_scan.
  rewrite (nested_foldl (λ acc di dj, AI.neighbour_step ai c.1 c.2 acc di dj)).
  fold offsets. rewrite scan_offsets. cbn [fst snd].
  f_equal. f_equal. f_equal. unfold new_sentence. f_equal.
  - rewrite list_to_set_filter. fold (block c).
    apply set_eq. intros d. unfold neighbours, added.
    rewrite (left_id_L ∅ (∪)), !elem_of_filter, !elem_of_difference,
      elem_of_singleton.
    rewrite Is_true_true. naive_solver.
  - f_equal. rewrite length_filter_size by apply NoDup_block_list.
    fold (block c). f_equal.
    apply set_eq. intros d. unfold neighbours, discounted.
    rewrite elem_of_filter, elem_of_difference, elem_of_intersection,
      elem_of_difference, elem_of_singleton.
    naive_solver.
Qed.

Lemma nearby_step_cases g c (n : Z) (d : cell) :
  Game.nearby_step g c n d.1 d.2
  = if decide (counted g c d) then n + 1 else n.
Proof.
  unfold Game.nearby_step, Game.is_mine.
  rewrite <- surjective_pairing.
  destruct (decide (counted g c d)) as [(Hne & Hb & Hm)|Hn].
  { rewrite bool_decide_eq_false_2 by done.
    by rewrite Hb, bool_decide_eq_true_2. }
  case_bool_decide as Hc; [done|].
  destruct (Game.in_bounds g d) eqn:Hb; [|done].
  case_bool_decide as Hm; [by destruct Hn | done].
Qed.

Lemma nearby_cells g c (l : list cell) (n : Z) :
  foldl (λ acc d, Game.nearby_step g c acc d.1 d.2) n l
  = n + Z.of_nat (length (filter (counted g c) l)).
Proof.
  revert n. induction l as [|d l IH]; intros n.
  - simpl. lia.
  - cbn [foldl]. rewrite nearby_step_cases, filter_cons.
    destruct (decide (counted g c d)); rewrite IH; cbn [length]; lia.
Qed.

(** [nearby_mines] counts the neighbours that are on the board and hold
    a mine. *)
Lemma nearby_mines_closed g c :
  Game.nearby_mines g c
  = len (filter (λ d, Game.in_bounds g d = true ∧ d ∈ g_mines g)
                (neighbours c)).
Proof.
  unfold Game.nearby_mines.
  rewrite (nested_foldl (λ acc i j, Game.nearby_step g c acc i j)).
  rewrite nearby_cells, Z.add_0_l.
  assert ((i ← range (c.1 - 1) (c.1 + 2);
           (λ j, (i, j)) <$> range (c.2 - 1) (c.2 + 2))
          = shift c <$> offsets) as ->.
  { rewrite !range_shift. unfold offsets. destruct c as [i j].
    by vm_compute. }
  rewrite length_filter_size by apply NoDup_block_list.
  fold (block c). f_equal.
  apply set_eq. intros d. unfold neighbours, counted.
  rewrite !elem_of_filter, elem_of_difference, elem_of_singleton.
  naive_solver.
Qed.

End neighbourhood.

(** ** What the agent holds is true of the board *)

Section soundness.
Context `{SetIter}.
Implicit Types (ai : MinesweeperAI) (M X Y : gset cell) (s : Sentence)
  (c d : cell).

Lemma len_difference_alt X Y : len (X ∖ Y) = len X - len (X ∩ Y).
Proof.
  unfold len. rewrite size_difference_alt.
  assert (size (X ∩ Y) ≤ size X)%nat by (apply subseteq_size; set_solver).
  lia.
Qed.

Lemma len_full_subseteq X M : len X = len (X ∩ M) → X ⊆ M.
Proof.
  unfold len. intros Hs.
  assert (X ∩ M = X) as <-; [|set_solver].
  apply set_subseteq_size_eq; [set_solver | lia].
Qed.

Lemma len_zero_disjoint X M : 0 = len (X ∩ M) → X ## M.
Proof.
  unfold len. intros Hs.
  assert (X ∩ M ≡ ∅) by (apply size_empty_iff; lia). set_solver.
Qed.

Lemma sound_init M (h w : Z) :
  (∀ d, d ∈ M → AI.in_grid (AI.init h w) d = true) → sound M (AI.init h w).
Proof.
  intros Hg. split; simpl; [done | set_solver | set_solver | constructor].
Qed.

Lemma sound_set_moves_made M ai X :
  sound M ai → sound M (set_moves_made X ai).
Proof. intros [Hg Hs Hm Hk]. by split. Qed.

Lemma sound_mark_safe M ai c : c ∉ M → sound M ai → sound M (AI.mark_safe c ai).
Proof.
  intros Hc [Hg Hs Hm Hk]. split; simpl; [done | set_solver | done |].
  apply Forall_fmap. eapply Forall_impl; [exact Hk|].
  intros s Hcount. unfold SentenceOps.mark_safe. simpl.
  case_bool_decide; [|done]. simpl. rewrite Hcount. f_equal. set_solver.
Qed.

(** The sentence built from a true count is true. *)
Lemma sound_new_sentence M ai c :
  sound M ai →
  let s := new_sentence ai c (len (neighbours c ∩ M)) in
  count s = len (cells s ∩ M).
Proof.
  intros [Hg Hs Hm Hk]. simpl.
  assert ((neighbours c ∩ mines ai) ∖ safes ai
          = (neighbours c ∩ M) ∩ mines ai) as -> by set_solver.
  rewrite <- len_difference_alt. f_equal.
  apply set_eq. intros d. specialize (Hg d).
  rewrite elem_of_difference, !elem_of_intersection, elem_of_filter,
    !elem_of_difference, Is_true_true.
  set_solver.
Qed.

Lemma sound_addNewStement M ai c :
  sound M ai → sound M (AI.addNewStement c (len (neighbours c ∩ M)) ai).
Proof.
  intros Hai. rewrite addNewStement_closed.
  pose proof (sound_new_sentence M ai c Hai) as Hnew.
  destruct Hai as [Hg Hs Hm Hk]. split; simpl; [done | done | done |].
  apply Forall_app. split; [done|]. by constructor.
Qed.

Lemma found_safes_disjoint M (K : list Sentence) :
  Forall (λ s, count s = len (cells s ∩ M)) K → found_safes K ## M.
Proof.
  unfold found_safes. induction 1 as [|s K Hs HK IH]; simpl; [set_solver|].
  apply disjoint_union_l. split; [|done].
  unfold SentenceOps.known_safes.
  destruct (count s =? 0) eqn:Hz; [|set_solver].
  apply Z.eqb_eq in Hz. apply len_zero_disjoint. by rewrite <- Hs.
Qed.

Lemma found_mines_subseteq M (K : list Sentence) :
  Forall (λ s, count s = len (cells s ∩ M)) K → found_mines K ⊆ M.
Proof.
  unfold found_mines. induction 1 as [|s K Hs HK IH]; simpl; [set_solver|].
  apply union_subseteq. split; [|done].
  unfold SentenceOps.known_mines.
  destruct (len (cells s) =? count s) eqn:Hz; [|set_solver].
  destruct (0 <? len (cells s)); [|set_solver]. simpl.
  apply Z.eqb_eq in Hz. apply len_full_subseteq. by rewrite <- Hs.
Qed.

Lemma Forall_filter_keep {A} (P Q : A → Prop) `{!∀ x, Decision (Q x)}
    (l : list A) :
  Forall P l → Forall P (filter Q l).
Proof.
  rewrite !Forall_forall. intros HP x [_ Hx]%list_elem_of_filter. by apply HP.
Qed.

Lemma sound_update_knowledge M ai :
  sound M ai → sound M (AI.update_knowledge ai).
Proof.
  rewrite update_knowledge_settle. intros [Hg Hs Hm Hk].
  pose proof (found_safes_disjoint M _ Hk) as HS.
  pose proof (found_mines_subseteq M _ Hk) as HM.
  unfold settle. split; simpl; [done | set_solver | set_solver |].
  apply Forall_filter_keep, Forall_fmap, Forall_fmap.
  eapply Forall_impl; [exact Hk|].
  intros s Hcount. simpl.
  set (nS := found_safes (knowledge ai) ∖ safes ai).
  set (nM := found_mines (knowledge ai) ∖ mines ai).
  assert (nS ## M) by set_solver. assert (nM ⊆ M) by set_solver.
  assert (cells s ∖ nS ∖ nM ∩ M = (cells s ∩ M) ∖ nM) as -> by set_solver.
  rewrite len_difference_alt, <- Hcount. f_equal. f_equal. set_solver.
Qed.

(** The sentence the subset rule derives from two true sentences is
    true. *)
Lemma sound_subtract M (K : list Sentence) (i : nat) s
    (acc : list Sentence) (jc : nat * Sentence) :
  count s = len (cells s ∩ M) →
  count jc.2 = len (cells jc.2 ∩ M) →
  Forall (λ s, count s = len (cells s ∩ M)) acc →
  Forall (λ s, count s = len (cells s ∩ M)) (AI.subtract_step K i s acc jc).
Proof.
  destruct jc as [j sC]. simpl. intros Hs HC Hacc.
  destruct (negb (i =? j)%nat && bool_decide (cells s ⊆ cells sC)) eqn:Hif;
    [|done].
  apply andb_true_iff in Hif as [_ Hsub%bool_decide_eq_true].
  assert ((if 0 <=? count sC - count s
           then mkSentence (cells sC ∖ cells s) (count sC - count s)
           else mkSentence (cells sC ∖ cells s) (count sC - count s))
          = mkSentence (cells sC ∖ cells s) (count sC - count s)) as ->
    by by destruct (0 <=? count sC - count s).
  match goal with |- context [if ?b then _ else _] => destruct b end; [|done].
  apply Forall_app. split; [done|]. constructor; [|constructor]. simpl.
  rewrite Hs, HC.
  assert (cells sC ∖ cells s ∩ M = (cells sC ∩ M) ∖ (cells s ∩ M)) as ->
    by set_solver.
  rewrite len_difference_alt. f_equal. f_equal. set_solver.
Qed.

Lemma elem_of_enumerate {A} (l : list A) (ix : nat * A) :
  ix ∈ enumerate l → ix.2 ∈ l.
Proof.
  unfold enumerate. destruct ix as [i x]. intros Hin.
  apply list_elem_of_In in Hin. apply in_combine_r in Hin.
  by apply list_elem_of_In.
Qed.

Lemma sound_new_statements M (K : list Sentence) :
  Forall (λ s, count s = len (cells s ∩ M)) K →
  Forall (λ s, count s = len (cells s ∩ M)) (AI.new_statements K).
Proof.
  intros HK. unfold AI.new_statements.
  apply foldl_invariant; [constructor|].
  intros acc ic Hic Hacc. apply foldl_invariant; [done|].
  intros acc' jc Hjc Hacc'.
  rewrite Forall_forall in HK.
  apply sound_subtract; [| |done]; by apply HK, elem_of_enumerate.
Qed.

Lemma sound_checkNewStement M ai :
  sound M ai → sound M (AI.checkNewStement ai).
Proof.
  intros [Hg Hs Hm Hk]. split; simpl; [done | done | done |].
  apply Forall_app. split; [done|]. by apply sound_new_statements.
Qed.

Lemma sound_add_knowledge M ai c :
  c ∉ M → sound M ai →
  sound M (AI.add_knowledge c (len (neighbours c ∩ M)) ai).
Proof.
  intros Hc Hai. unfold AI.add_knowledge.
  apply sound_update_knowledge, sound_checkNewStement, sound_update_knowledge,
    sound_addNewStement, sound_mark_safe, sound_set_moves_made; done.
Qed.

Lemma sound_disjoint M ai : sound M ai → safes ai ## mines ai.
Proof. intros [Hg Hs Hm Hk]. set_solver. Qed.

(** A true sentence has a count between zero and its number of cells. *)
Lemma sound_count_bounds M ai :
  sound M ai → Forall (λ s, 0 <= count s <= len (cells s)) (knowledge ai).
Proof.
  intros [Hg Hs Hm Hk]. eapply Forall_impl; [exact Hk|].
  intros s ->. split; [apply len_nonneg|].
  unfold len. apply inj_le, subseteq_size. set_solver.
Qed.

End soundness.

(** ** The sets of the agent over a sequence of calls *)

Section monotone.
Context `{SetIter}.
Implicit Types (ai : MinesweeperAI) (g : Minesweeper) (c : cell).

Lemma grows_refl ai : grows ai ai.
Proof. by unfold grows. Qed.

Lemma grows_trans ai1 ai2 ai3 : grows ai1 ai2 → grows ai2 ai3 → grows ai1 ai3.
Proof. unfold grows. intros (? & ? & ?) (? & ? & ?). set_solver. Qed.

Lemma update_knowledge_grows ai : grows ai (AI.update_knowledge ai).
Proof.
  rewrite update_knowledge_settle. unfold grows, settle. simpl. set_solver.
Qed.

Lemma add_knowledge_grows c n ai : grows ai (AI.add_knowledge c n ai).
Proof.
  unfold AI.add_knowledge.
  eapply grows_trans; [|apply update_knowledge_grows].
  eapply grows_trans; [|apply update_knowledge_grows].
  unfold grows. simpl. set_solver.
Qed.

Lemma observe_grows obs ai : grows ai (AI.observe obs ai).
Proof.
  unfold AI.observe. revert ai.
  induction obs as [|o obs IH]; intros ai; simpl; [apply grows_refl|].
  eapply grows_trans; [apply add_knowledge_grows | apply IH].
Qed.

Lemma observe_app obs more ai :
  AI.observe (obs ++ more) ai = AI.observe more (AI.observe obs ai).
Proof. apply foldl_app. Qed.

(** On a board whose mines are on it, the count [nearby_mines] gives is
    the number of neighbours that hold a mine. *)
Lemma nearby_mines_neighbours g c :
  mines_on_board g → Game.nearby_mines g c = len (neighbours c ∩ g_mines g).
Proof.
  intros Hb. rewrite nearby_mines_closed. f_equal.
  apply set_eq. intros d. specialize (Hb d).
  rewrite elem_of_filter, elem_of_intersection. naive_solver.
Qed.

Lemma truthful_add_knowledge g ai (o : cell * Z) :
  mines_on_board g → truthful g o →
  sound (g_mines g) ai → sound (g_mines g) (AI.add_knowledge o.1 o.2 ai).
Proof.
  intros Hb [Hc Hn] Hai. rewrite Hn, nearby_mines_neighbours by done.
  by apply sound_add_knowledge.
Qed.

Lemma truthful_observe g obs ai :
  mines_on_board g → Forall (truthful g) obs →
  sound (g_mines g) ai → sound (g_mines g) (AI.observe obs ai).
Proof.
  intros Hb Hobs. unfold AI.observe. revert ai.
  induction Hobs as [|o obs Ho Hobs IH]; intros ai Hai; simpl; [done|].
  apply IH. by apply truthful_add_knowledge.
Qed.

Lemma sound_fresh g :
  g_height g = g_width g → mines_on_board g →
  sound (g_mines g) (AI.init (g_height g) (g_width g)).
Proof.
  intros Hsq Hb. apply sound_init. intros d Hd. specialize (Hb d Hd).
  unfold AI.in_grid, Game.in_bounds in *. simpl.
  by rewrite <- Hsq in Hb |- *.
Qed.

(** After truthful reports on a square board, from a fresh agent, what
    the agent holds is true of the board; in particular every sentence has
    a count between zero and its number of cells. *)
Lemma truthful_sound g obs :
  g_height g = g_width g → mines_on_board g → Forall (truthful g) obs →
  sound (g_mines g) (AI.observe obs (AI.init (g_height g) (g_width g))).
Proof.
  intros Hsq Hb Hobs. apply truthful_observe; [done | done |].
  by apply sound_fresh.
Qed.

End monotone.

(** Over any sequence of calls of [add_knowledge] the sets [moves_made],
    [safes] and [mines] only grow.  When the calls report, for cells that
    are not mines, the counts [nearby_mines] gives on one square board
    whose mines are on the board, [safes] and [mines] have no cell in
    common after the calls. *)
Theorem add_knowledge_grows_disjoint `{SetIter} (g : Minesweeper)
    (obs more : list (cell * Z)) :
  let ai := AI.observe obs (AI.init (g_height g) (g_width g)) in
  let ai' := AI.observe more ai in
  grows ai ai'
  ∧ (g_height g = g_width g → mines_on_board g →
     Forall (truthful g) (obs ++ more) →
     safes ai' ## mines ai').
Proof.
  intros ai ai'. split; [apply observe_grows|].
  intros Hsq Hb Hobs. apply (sound_disjoint (g_mines g)).
  unfold ai', ai. rewrite <- observe_app. by apply truthful_sound.
Qed.

Lemma add_knowledge_grows_disjoint_witness :
  let g := mkGame 3 3 {[ (0, 0) ]} in
  let ai := AI.observe [((0, 1), 1)] (AI.init 3 3) in
  let ai' := AI.observe [((1, 0), 1); ((1, 1), 1)] ai in
  grows ai ai' ∧ safes ai' ## mines ai'.
Proof.
  intros g ai ai'.
  destruct (add_knowledge_grows_disjoint g [((0, 1), 1)]
              [((1, 0), 1); ((1, 1), 1)]) as [Hgrow Hdisj].
  split; [exact Hgrow|]. apply Hdisj.
  - reflexivity.
  - intros d Hd. simpl in Hd. apply elem_of_singleton in Hd. by subst.
  - repeat (apply Forall_cons; split;
      [split; [simpl; intros Hd; apply elem_of_singleton in Hd; discriminate
              | vm_compute; reflexivity]|]).
    apply Forall_nil_2.
Defined.

(** A report for a cell the agent holds as a mine puts the cell in [safes]
    as well: [add_knowledge] does not test a report against what is
    known. *)
Lemma add_knowledge_reclassifies :
  let ai := AI.observe [((0, 0), 3)] (AI.init 3 3) in
  let ai' := AI.observe [((1, 1), 0)] ai in
  (1, 1) ∈ mines ai ∧ ((1, 1) ∉ safes ai)
  ∧ (1, 1) ∈ safes ai' ∧ (1, 1) ∈ mines ai'
  ∧ ¬ (safes ai' ## mines ai').
Proof.
  intros ai ai'.
  assert ((1, 1) ∈ safes ai' ∧ (1, 1) ∈ mines ai') as [Hs Hm].
  { split; apply (bool_decide_eq_true_1 ((1, 1) ∈ _)); vm_compute; reflexivity. }
  split_and!; [| |done|done|].
  - apply (bool_decide_eq_true_1 ((1, 1) ∈ _)). vm_compute. reflexivity.
  - apply (bool_decide_eq_false_1 ((1, 1) ∈ _)). vm_compute. reflexivity.
  - intros Hd. by apply (Hd (1, 1)).
Qed.

(** ** Move selection *)

Section moves.
Context `{SetIter}.
Implicit Types (ai : MinesweeperAI) (X : gset cell).

Lemma next_iter_spec X :
  X ≠ ∅ → ∃ c, c ∈ X ∧ AI.next_iter X = Return c.
Proof.
  intros Hne. unfold AI.next_iter.
  destruct (iter X) as [|c l] eqn:Hi.
  - destruct Hne. by rewrite <- (iter_to_set X), Hi.
  - exists c. split; [|done]. apply elem_of_iter. rewrite Hi. by left.
Qed.

Lemma first_or_none_nonempty X :
  X ≠ ∅ → ∃ c, c ∈ X ∧ AI.first_or_none X = Return (Some c).
Proof.
  intros Hne. unfold AI.first_or_none.
  destruct (next_iter_spec X Hne) as (c & Hc & ->).
  apply len_pos_iff, Z.ltb_lt in Hne as ->. by exists c.
Qed.

Lemma first_or_none_empty : AI.first_or_none ∅ = Return None.
Proof. unfold AI.first_or_none. by rewrite len_empty. Qed.

Lemma first_or_none_singleton c : AI.first_or_none {[ c ]} = Return (Some c).
Proof.
  destruct (first_or_none_nonempty {[ c ]}) as (d & Hd & ->).
  - intros He. assert (c ∈ (∅ : gset cell)) as Hc; [|by set_solver].
    rewrite <- He. by apply elem_of_singleton.
  - apply elem_of_singleton in Hd. by subst.
Qed.

End moves.

(** C7.  [make_safe_move] leaves the agent as it was; when
    [safes - moves_made - mines] has an element it returns one of its
    elements, and when that set is empty it returns [None]: it never
    raises. *)
Theorem make_safe_move_spec `{SetIter} (ai : MinesweeperAI) :
  let S := safes ai ∖ moves_made ai ∖ mines ai in
  (AI.make_safe_move ai).2 = ai
  ∧ (S ≠ ∅ → ∃ c, c ∈ S ∧ (AI.make_safe_move ai).1 = Return (Some c))
  ∧ (S = ∅ → (AI.make_safe_move ai).1 = Return None).
Proof.
  intros S. unfold AI.make_safe_move. simpl. split_and!; [done | |].
  - apply first_or_none_nonempty.
  - fold S. intros ->. apply first_or_none_empty.
Qed.

(** ** The code at particular inputs *)

(** C3.  On a board of height 1 and width 2, the sentence
    [addNewStement] builds for the cell [(0, 0)] holds the cell [(1, 0)],
    which is off the board, and not [(0, 1)], the one neighbour that is on
    it: the first coordinate is tested against [width] and the second
    against [height]. *)
Theorem addNewStement_swapped_bounds :
  let g := mkGame 1 2 ∅ in
  let ai := AI.addNewStement (0, 0) (Game.nearby_mines g (0, 0))
              (AI.init (g_height g) (g_width g)) in
  knowledge ai = [mkSentence {[ (1, 0) ]} 0]
  ∧ Game.in_bounds g (1, 0) = false
  ∧ Game.in_bounds g (0, 1) = true.
Proof. vm_compute. done. Qed.

(** C8.  On a board of height 1 and width 2, after the cell [(0, 0)] was
    played, [make_random_move] returns [(1, 0)], whatever the order of
    iteration: a cell off the board, while the unplayed cell [(0, 1)] of
    the board is never returned. *)
Theorem make_random_move_off_board `{SetIter} :
  let g := mkGame 1 2 ∅ in
  let ai := AI.add_knowledge (0, 0) (Game.nearby_mines g (0, 0))
              (AI.init (g_height g) (g_width g)) in
  (AI.make_random_move ai).1 = Return (Some (1, 0))
  ∧ Game.in_bounds g (1, 0) = false
  ∧ Game.in_bounds g (0, 1) = true
  ∧ (0, 1) ∉ mines ai ∪ moves_made ai.
Proof.
  intros g ai. unfold ai.
  rewrite (add_knowledge_iter_irrel _ elements_iter).
  unfold AI.make_random_move. cbn [fst].
  match goal with |- AI.first_or_none ?X = _ ∧ _ =>
    assert (X = {[ (1, 0) ]}) as -> by (vm_compute; reflexivity) end.
  rewrite first_or_none_singleton. split_and!; [done | done | done |].
  apply (bool_decide_eq_false_1 ((0, 1) ∈ _)). vm_compute. reflexivity.
Qed.

(** C1.  On a 3 by 3 board whose only mine is at [(0, 0)], after the
    cells [(0, 1)], [(1, 0)] and [(1, 1)] were reported with their counts,
    the agent holds three sentences [{(0, 0)} = 1] and no known mine; one
    more call of [update_knowledge] marks [(0, 0)] as a mine and empties
    the knowledge base. *)
Theorem add_knowledge_not_quiescent `{SetIter} :
  let g := mkGame 3 3 {[ (0, 0) ]} in
  let ai := AI.observe ((λ c, (c, Game.nearby_mines g c))
                          <$> [(0, 1); (1, 0); (1, 1)])
              (AI.init (g_height g) (g_width g)) in
  mines ai = ∅
  ∧ knowledge ai = [mkSentence {[ (0, 0) ]} 1; mkSentence {[ (0, 0) ]} 1;
                    mkSentence {[ (0, 0) ]} 1]
  ∧ mines (AI.update_knowledge ai) = {[ (0, 0) ]}
  ∧ knowledge (AI.update_knowledge ai) = []
  ∧ AI.update_knowledge ai ≠ ai.
Proof.
  intros g ai. unfold ai.
  rewrite (observe_iter_irrel _ elements_iter).
  rewrite (update_knowledge_iter_irrel _ elements_iter).
  split_and!; try (vm_compute; reflexivity).
  intros Heq. apply (f_equal knowledge) in Heq. vm_compute in Heq. done.
Qed.

(** C5.  On a board of height 2 and width 3 whose only mine is at
    [(0, 2)], the cells [(1, 1)], [(0, 1)] and [(0, 0)] are on the board
    and hold no mine; after they were reported with the counts
    [nearby_mines] gives, the cell [(1, 0)], which holds no mine and was
    in neither set before the third report, is both in [mines] and in
    [safes]: the two sets are not disjoint. *)
Theorem add_knowledge_truthful_overlap `{SetIter} :
  let g := mkGame 2 3 {[ (0, 2) ]} in
  let report := λ c, (c, Game.nearby_mines g c) in
  let before := AI.observe (report <$> [(1, 1); (0, 1)])
                  (AI.init (g_height g) (g_width g)) in
  let ai := AI.add_knowledge (0, 0) (Game.nearby_mines g (0, 0)) before in
  mines_on_board g
  ∧ Forall (λ c, Game.in_bounds g c = true ∧ c ∉ g_mines g)
           [(1, 1); (0, 1); (0, 0)]
  ∧ Forall (truthful g) (report <$> [(1, 1); (0, 1); (0, 0)])
  ∧ ((1, 0) ∉ g_mines g)
  ∧ ((1, 0) ∉ safes before) ∧ ((1, 0) ∉ mines before)
  ∧ (1, 0) ∈ safes ai ∧ (1, 0) ∈ mines ai
  ∧ ¬ (safes ai ## mines ai).
Proof.
  intros g report before ai.
  assert ((1, 0) ∈ safes ai ∧ (1, 0) ∈ mines ai) as [Hs Hm].
  { unfold ai, before.
    rewrite (add_knowledge_iter_irrel _ elements_iter),
      (observe_iter_irrel _ elements_iter).
    split; apply (bool_decide_eq_true_1 ((1, 0) ∈ _)); vm_compute;
      reflexivity. }
  split_and!; [| | | | | | done | done |].
  - intros d Hd. simpl in Hd. apply elem_of_singleton in Hd. by subst.
  - repeat (apply Forall_cons; split;
      [split; [reflexivity
              | simpl; intros Hd; apply elem_of_singleton in Hd;
                discriminate]|]).
    apply Forall_nil_2.
  - repeat (apply Forall_cons; split;
      [split; [simpl; intros Hd; apply elem_of_singleton in Hd; discriminate
              | reflexivity]|]).
    apply Forall_nil_2.
  - simpl. intros Hd. apply elem_of_singleton in Hd. discriminate.
  - unfold before. rewrite (observe_iter_irrel _ elements_iter).
    apply (bool_decide_eq_false_1 ((1, 0) ∈ _)). vm_compute. reflexivity.
  - unfold before. rewrite (observe_iter_irrel _ elements_iter).
    apply (bool_decide_eq_false_1 ((1, 0) ∈ _)). vm_compute. reflexivity.
  - intros Hd. by apply (Hd (1, 0)).
Qed.

(** C2.  After the reports [((1, 1), 1)] and [((0, 1), 2)] on a 3 by 3
    grid, [checkNewStement] has put the sentence
    [{(2, 0), (2, 1), (2, 2)} = -1] in the knowledge base, and it is still
    there when [add_knowledge] returns. *)
Theorem checkNewStement_negative_count `{SetIter} :
  let ai := AI.observe [((1, 1), 1); ((0, 1), 2)] (AI.init 3 3) in
  knowledge ai
  = [mkSentence {[ (0, 0); (0, 2); (1, 0); (1, 2); (2, 0); (2, 1); (2, 2) ]} 1;
     mkSentence {[ (0, 0); (0, 2); (1, 0); (1, 2) ]} 2;
     mkSentence {[ (2, 0); (2, 1); (2, 2) ]} (-1)]
  ∧ AI.new_statements
      [mkSentence {[ (0, 0); (0, 2); (1, 0); (1, 2); (2, 0); (2, 1); (2, 2) ]} 1;
       mkSentence {[ (0, 0); (0, 2); (1, 0); (1, 2) ]} 2]
    = [mkSentence {[ (2, 0); (2, 1); (2, 2) ]} (-1)].
Proof.
  intros ai. unfold ai.
  rewrite (observe_iter_irrel _ elements_iter).
  split; vm_compute; reflexivity.
Qed.


(** * Further properties *)

(** ** Neighbours and counts *)

Lemma offsets_list :
  offsets = [(-1, -1); (-1, 0); (-1, 1); (0, -1); (0, 0); (0, 1);
             (1, -1); (1, 0); (1, 1)].
Proof. reflexivity. Qed.

Lemma elem_of_block (c d : cell) :
  d ∈ block c ↔ c.1 - 1 <= d.1 <= c.1 + 1 ∧ c.2 - 1 <= d.2 <= c.2 + 1.
Proof.
  unfold block. rewrite elem_of_list_to_set, list_elem_of_fmap. split.
  - intros (o & -> & Ho). rewrite offsets_list in Ho.
    unfold shift. simpl.
    repeat (apply elem_of_cons in Ho as [->|Ho]; [simpl; lia|]).
    by apply elem_of_nil in Ho.
  - intros [H1 H2]. exists (d.1 - c.1, d.2 - c.2). split.
    + destruct d as [d1 d2]. unfold shift. simpl. f_equal; lia.
    + rewrite offsets_list.
      assert (d.1 - c.1 = -1 ∨ d.1 - c.1 = 0 ∨ d.1 - c.1 = 1) as Hx by lia.
      assert (d.2 - c.2 = -1 ∨ d.2 - c.2 = 0 ∨ d.2 - c.2 = 1) as Hy by lia.
      destruct Hx as [-> | [-> | ->]], Hy as [-> | [-> | ->]];
        set_solver.
Qed.

Lemma elem_of_neighbours (c d : cell) : d ∈ neighbours c ↔ adjacent c d.
Proof.
  unfold neighbours, adjacent.
  rewrite elem_of_difference, elem_of_block, elem_of_singleton. tauto.
Qed.

Lemma len_neighbours (c : cell) : len (neighbours c) = 8.
Proof.
  unfold neighbours. rewrite len_difference_alt.
  assert (block c ∩ {[ c ]} = {[ c ]}) as ->.
  { apply set_eq. intros d.
    rewrite elem_of_intersection, elem_of_singleton, elem_of_block.
    split; [tauto|]. intros ->. split; [lia | done]. }
  unfold len, block. rewrite size_singleton.
  rewrite size_list_to_set by apply NoDup_block_list.
  rewrite length_fmap, offsets_list. reflexivity.
Qed.

Lemma len_subseteq (X Y : gset cell) : X ⊆ Y → len X <= len Y.
Proof. intros Hs. unfold len. by apply inj_le, subseteq_size. Qed.

(** X1.  [nearby_mines] returns the number of mines that are on the board,
    within one row and one column of the cell, and not the cell itself;
    the result lies between 0 and 8.  Whether the cell itself holds a mine,
    or lies on the board, has no effect. *)
Theorem nearby_mines_counts (g : Minesweeper) (c : cell) :
  Game.nearby_mines g c
  = len (filter (λ d, adjacent c d ∧ Game.in_bounds g d = true) (g_mines g))
  ∧ 0 <= Game.nearby_mines g c <= 8
  ∧ Game.nearby_mines (mkGame (g_height g) (g_width g) (g_mines g ∖ {[ c ]})) c
    = Game.nearby_mines g c
  ∧ Game.nearby_mines (mkGame (g_height g) (g_width g) (g_mines g ∪ {[ c ]})) c
    = Game.nearby_mines g c.
Proof.
  rewrite !nearby_mines_closed. simpl. split_and!.
  - f_equal. apply set_eq. intros d.
    rewrite !elem_of_filter, elem_of_neighbours. tauto.
  - apply len_nonneg.
  - rewrite <- (len_neighbours c). apply len_subseteq.
    intros d. rewrite elem_of_filter. tauto.
  - f_equal. apply set_eq. intros d.
    rewrite !elem_of_filter, elem_of_difference, elem_of_singleton,
      elem_of_neighbours. unfold adjacent, Game.in_bounds. simpl. tauto.
  - f_equal. apply set_eq. intros d.
    rewrite !elem_of_filter, elem_of_union, elem_of_singleton,
      elem_of_neighbours. unfold adjacent, Game.in_bounds. simpl. tauto.
Qed.

(** X2.  [addNewStement] changes nothing but the knowledge base, to which
    it appends one sentence.  A cell is in that sentence exactly when it is
    adjacent to the reported cell, is neither a known safe nor a known
    mine, and passes the grid test; the count of the sentence is the
    reported count less the number of adjacent cells that are known mines
    and not known safes, whether or not these pass the grid test. *)
Theorem addNewStement_spec (c : cell) (n : Z) (ai : MinesweeperAI) :
  ∃ s, AI.addNewStement c n ai = set_knowledge (knowledge ai ++ [s]) ai
       ∧ (∀ d, d ∈ cells s ↔
               adjacent c d ∧ (d ∉ safes ai) ∧ (d ∉ mines ai)
               ∧ AI.in_grid ai d = true)
       ∧ count s
         = n - len (filter (λ d, adjacent c d ∧ d ∉ safes ai) (mines ai)).
Proof.
  exists (new_sentence ai c n). split_and!.
  - apply addNewStement_closed.
  - intros d. unfold new_sentence. simpl.
    rewrite elem_of_filter, !elem_of_difference, elem_of_neighbours,
      Is_true_true. tauto.
  - unfold new_sentence. simpl. f_equal. f_equal.
    apply set_eq. intros d.
    rewrite elem_of_filter, elem_of_difference, elem_of_intersection,
      elem_of_neighbours. tauto.
Qed.

(** ** Sentences and a placement of mines *)

(** X3.  When the count of a sentence is the number of mines among its
    cells, every cell [known_mines] returns is a mine and no cell
    [known_safes] returns is one. *)
Theorem known_conclusions_sound (M : gset cell) (s : Sentence) :
  count s = len (cells s ∩ M) →
  SentenceOps.known_mines s ⊆ M ∧ SentenceOps.known_safes s ## M.
Proof.
  intros Hs. split.
  - unfold SentenceOps.known_mines.
    destruct (len (cells s) =? count s) eqn:Hz; [|set_solver].
    destruct (0 <? len (cells s)); simpl; [|set_solver].
    apply Z.eqb_eq in Hz. apply len_full_subseteq. by rewrite <- Hs.
  - unfold SentenceOps.known_safes.
    destruct (count s =? 0) eqn:Hz; [|set_solver].
    apply Z.eqb_eq in Hz. apply len_zero_disjoint. by rewrite <- Hs.
Qed.

Lemma known_conclusions_sound_witness :
  SentenceOps.known_mines (mkSentence {[ (0, 0); (0, 1) ]} 2)
    ⊆ {[ (0, 0); (0, 1); (2, 2) ]}
  ∧ SentenceOps.known_safes (mkSentence {[ (0, 0); (0, 1) ]} 2)
    ## {[ (0, 0); (0, 1); (2, 2) ]}.
Proof.
  apply (known_conclusions_sound {[ (0, 0); (0, 1); (2, 2) ]}
           (mkSentence {[ (0, 0); (0, 1) ]} 2)).
  vm_compute. reflexivity.
Defined.

(** X4.  Marking keeps a sentence true: when the count is the number of
    mines among the cells, it still is after [mark_mine] of a cell that is
    a mine and after [mark_safe] of a cell that is not. *)
Theorem mark_keeps_truth (M : gset cell) (s : Sentence) (c : cell) :
  count s = len (cells s ∩ M) →
  (c ∈ M →
   count (SentenceOps.mark_mine c s)
   = len (cells (SentenceOps.mark_mine c s) ∩ M))
  ∧ (c ∉ M →
     count (SentenceOps.mark_safe c s)
     = len (cells (SentenceOps.mark_safe c s) ∩ M)).
Proof.
  intros Hs. unfold SentenceOps.mark_mine, SentenceOps.mark_safe. split.
  - intros Hc. case_bool_decide as Hin; [|done]. simpl. rewrite Hs.
    assert (cells s ∩ M = {[ c ]} ∪ (cells s ∖ {[ c ]}) ∩ M) as ->.
    { apply set_eq. intros d.
      rewrite elem_of_union, !elem_of_intersection, elem_of_difference,
        elem_of_singleton.
      destruct (decide (d = c)) as [->|]; tauto. }
    rewrite len_insert_fresh by set_solver. lia.
  - intros Hc. case_bool_decide as Hin; [|done]. simpl. rewrite Hs.
    f_equal. set_solver.
Qed.

Lemma mark_keeps_truth_witness :
  let M : gset cell := {[ (0, 0); (2, 2) ]} in
  let s := mkSentence {[ (0, 0); (0, 1); (1, 1) ]} 1 in
  ((0, 0) ∈ M →
   count (SentenceOps.mark_mine (0, 0) s)
   = len (cells (SentenceOps.mark_mine (0, 0) s) ∩ M))
  ∧ ((0, 0) ∉ M →
     count (SentenceOps.mark_safe (0, 0) s)
     = len (cells (SentenceOps.mark_safe (0, 0) s) ∩ M)).
Proof.
  intros M s. apply (mark_keeps_truth M s (0, 0)). vm_compute. reflexivity.
Defined.

(** ** Marking in any order *)

Lemma strike_mine_mark_any (c : cell) (X : gset cell) (s : Sentence) :
  strike_mine X (SentenceOps.mark_mine c s) = strike_mine ({[ c ]} ∪ X) s.
Proof.
  destruct (decide (c ∈ X)) as [Hc|Hc]; [|by apply strike_mine_mark].
  unfold SentenceOps.mark_mine, strike_mine.
  case_bool_decide as Hin; simpl.
  - f_equal; [set_solver|].
    assert (cells s ∩ ({[ c ]} ∪ X) = {[ c ]} ∪ (cells s ∖ {[ c ]}) ∩ X) as ->.
    { apply set_eq. intros d.
      rewrite elem_of_union, !elem_of_intersection, elem_of_difference,
        elem_of_union, elem_of_singleton.
      destruct (decide (d = c)) as [->|]; tauto. }
    rewrite len_insert_fresh by set_solver. lia.
  - f_equal; [set_solver|].
    assert (cells s ∩ ({[ c ]} ∪ X) = cells s ∩ X) as -> by set_solver.
    done.
Qed.

Lemma mark_mine_loop_any (l : list cell) (ai : MinesweeperAI) :
  foldl (λ a c, AI.mark_mine c a) ai l
  = set_knowledge (strike_mine (list_to_set l) <$> knowledge ai)
      (set_mines (mines ai ∪ list_to_set l) ai).
Proof.
  revert ai. induction l as [|c l IH]; intros ai.
  - apply (mark_mine_loop [] ai NoDup_nil_2).
  - cbn [foldl]. rewrite IH. destruct ai as [h w mv mn sf K].
    unfold set_knowledge, set_mines, AI.mark_mine. simpl.
    f_equal; [set_solver|].
    rewrite <- list_fmap_compose. apply list_fmap_ext.
    intros ? s _. simpl. apply strike_mine_mark_any.
Qed.

(** X5.  Calling [mark_safe], or [mark_mine], of the agent for the cells
    of a sequence gives the same agent for any two sequences with the same
    cells: neither the order nor a repetition matters. *)
Theorem marking_order_independent (ai : MinesweeperAI) (l1 l2 : list cell) :
  (∀ c, c ∈ l1 ↔ c ∈ l2) →
  foldl (λ a c, AI.mark_safe c a) ai l1 = foldl (λ a c, AI.mark_safe c a) ai l2
  ∧ foldl (λ a c, AI.mark_mine c a) ai l1
    = foldl (λ a c, AI.mark_mine c a) ai l2.
Proof.
  intros Hl.
  assert (list_to_set l1 = (list_to_set l2 : gset cell)) as Hset.
  { apply set_eq. intros c. rewrite !elem_of_list_to_set. apply Hl. }
  split.
  - by rewrite !mark_safe_loop, Hset.
  - by rewrite !mark_mine_loop_any, Hset.
Qed.

Lemma marking_order_independent_witness :
  let ai := mkAI 3 3 ∅ ∅ {[ (1, 1) ]}
              [mkSentence {[ (0, 0); (0, 1); (1, 0) ]} 2;
               mkSentence {[ (0, 1); (0, 2) ]} 1] in
  let l1 := [(0, 0); (0, 1)] in
  let l2 := [(0, 1); (0, 0); (0, 1)] in
  foldl (λ a c, AI.mark_safe c a) ai l1 = foldl (λ a c, AI.mark_safe c a) ai l2
  ∧ foldl (λ a c, AI.mark_mine c a) ai l1
    = foldl (λ a c, AI.mark_mine c a) ai l2.
Proof.
  intros ai l1 l2. apply (marking_order_independent ai l1 l2).
  intros c. unfold l1, l2. rewrite !elem_of_cons, !elem_of_nil. tauto.
Defined.

(** ** What one call of [update_knowledge] does *)

Lemma elem_of_found_safes (K : list Sentence) (d : cell) :
  d ∈ found_safes K ↔ ∃ s, s ∈ K ∧ d ∈ SentenceOps.known_safes s.
Proof.
  unfold found_safes. rewrite elem_of_union_list. split.
  - intros (X & HX & Hd). apply list_elem_of_fmap in HX as (s & -> & Hs).
    by exists s.
  - intros (s & Hs & Hd). exists (SentenceOps.known_safes s).
    split; [|done]. apply list_elem_of_fmap. by exists s.
Qed.

Lemma elem_of_found_mines (K : list Sentence) (d : cell) :
  d ∈ found_mines K ↔ ∃ s, s ∈ K ∧ d ∈ SentenceOps.known_mines s.
Proof.
  unfold found_mines. rewrite elem_of_union_list. split.
  - intros (X & HX & Hd). apply list_elem_of_fmap in HX as (s & -> & Hs).
    by exists s.
  - intros (s & Hs & Hd). exists (SentenceOps.known_mines s).
    split; [|done]. apply list_elem_of_fmap. by exists s.
Qed.

Lemma settle_strikes_empty (ai : MinesweeperAI) :
  found_safes (knowledge ai) ⊆ safes ai →
  found_mines (knowledge ai) ⊆ mines ai →
  settle ai
  = set_knowledge (filter (λ s, 0 < len (cells s)) (knowledge ai)) ai.
Proof.
  intros HS HM. unfold settle, set_knowledge.
  assert (found_safes (knowledge ai) ∖ safes ai = ∅) as -> by set_solver.
  assert (found_mines (knowledge ai) ∖ mines ai = ∅) as -> by set_solver.
  f_equal; [set_solver | set_solver |]. f_equal.
  rewrite <- list_fmap_compose.
  rewrite <- (list_fmap_id (knowledge ai)) at 2. apply list_fmap_ext.
  intros ? s _. simpl. by rewrite strike_safe_empty, strike_mine_empty.
Qed.

Lemma filter_all {A} (P : A → Prop) `{!∀ x, Decision (P x)} (l : list A) :
  filter P l = l ↔ Forall P l.
Proof.
  split.
  - intros Heq. apply Forall_forall. intros x Hx.
    rewrite <- Heq in Hx. by apply list_elem_of_filter in Hx as [HP _].
  - induction 1 as [|x l Hx Hl IH]; [done|].
    rewrite filter_cons, decide_True by done. by rewrite IH.
Qed.

(** X6.  One call of [update_knowledge] keeps [height], [width] and
    [moves_made]; afterwards [safes] holds what it held and what
    [known_safes] gives for the sentences of the knowledge base as it was,
    and [mines] likewise with [known_mines]; no sentence is added, and
    every sentence that remains has a cell and holds none of the cells
    that were just added to [safes] or [mines]. *)
Theorem update_knowledge_effect `{SetIter} (ai : MinesweeperAI) :
  let ai' := AI.update_knowledge ai in
  height ai' = height ai ∧ width ai' = width ai
  ∧ moves_made ai' = moves_made ai
  ∧ (∀ d, d ∈ safes ai' ↔
          d ∈ safes ai
          ∨ ∃ s, s ∈ knowledge ai ∧ d ∈ SentenceOps.known_safes s)
  ∧ (∀ d, d ∈ mines ai' ↔
          d ∈ mines ai
          ∨ ∃ s, s ∈ knowledge ai ∧ d ∈ SentenceOps.known_mines s)
  ∧ (length (knowledge ai') ≤ length (knowledge ai))%nat
  ∧ Forall (λ s, cells s ≠ ∅
                 ∧ cells s ## (safes ai' ∖ safes ai) ∪ (mines ai' ∖ mines ai))
           (knowledge ai').
Proof.
  intros ai'. unfold ai'. rewrite update_knowledge_settle. unfold settle.
  cbn [height width moves_made safes mines knowledge].
  split_and!; [done | done | done | | | |].
  - intros d. rewrite elem_of_union, elem_of_difference,
      elem_of_found_safes.
    destruct (decide (d ∈ safes ai)); tauto.
  - intros d. rewrite elem_of_union, elem_of_difference,
      elem_of_found_mines.
    destruct (decide (d ∈ mines ai)); tauto.
  - etransitivity; [apply length_filter|]. by rewrite !length_fmap.
  - apply Forall_forall. intros s [Hpos Hs]%list_elem_of_filter.
    split; [by apply len_pos_iff|].
    apply list_elem_of_fmap in Hs as (s1 & -> & Hs).
    apply list_elem_of_fmap in Hs as (s0 & -> & Hs).
    simpl. set_solver.
Qed.

(** X7.  One call of [update_knowledge] leaves the agent as it was exactly
    when every sentence has a cell, [known_safes] gives only known safes
    and [known_mines] only known mines. *)
Theorem update_knowledge_fixed_iff `{SetIter} (ai : MinesweeperAI) :
  AI.update_knowledge ai = ai
  ↔ Forall (λ s, cells s ≠ ∅
                 ∧ SentenceOps.known_safes s ⊆ safes ai
                 ∧ SentenceOps.known_mines s ⊆ mines ai)
           (knowledge ai).
Proof.
  rewrite update_knowledge_settle. split.
  - intros Heq.
    assert (found_safes (knowledge ai) ⊆ safes ai) as HS.
    { apply (f_equal safes) in Heq. unfold settle in Heq. simpl in Heq.
      set_solver. }
    assert (found_mines (knowledge ai) ⊆ mines ai) as HM.
    { apply (f_equal mines) in Heq. unfold settle in Heq. simpl in Heq.
      set_solver. }
    rewrite settle_strikes_empty in Heq by done.
    apply (f_equal knowledge) in Heq. simpl in Heq.
    apply filter_all in Heq. rewrite Forall_forall in Heq.
    apply Forall_forall. intros s Hs. split_and!.
    + by apply len_pos_iff, Heq.
    + intros d Hd. apply HS, elem_of_found_safes. by exists s.
    + intros d Hd. apply HM, elem_of_found_mines. by exists s.
  - intros Hall. rewrite Forall_forall in Hall.
    rewrite settle_strikes_empty.
    + destruct ai as [h w mv mn sf K]. unfold set_knowledge. simpl. f_equal.
      apply filter_all, Forall_forall. intros s Hs.
      apply len_pos_iff. by apply Hall.
    + intros d (s & Hs & Hd)%elem_of_found_safes.
      by apply (Hall s Hs).
    + intros d (s & Hs & Hd)%elem_of_found_mines.
      by apply (Hall s Hs).
Qed.

(** X8.  The agent after [update_knowledge], after [add_knowledge] and
    after a sequence of calls of [add_knowledge] is the same for any two
    orders in which sets are iterated. *)
Theorem add_knowledge_order_independent (I1 I2 : SetIter)
    (ai : MinesweeperAI) (c : cell) (n : Z) (obs : list (cell * Z)) :
  @AI.update_knowledge I1 ai = @AI.update_knowledge I2 ai
  ∧ @AI.add_knowledge I1 c n ai = @AI.add_knowledge I2 c n ai
  ∧ @AI.observe I1 obs ai = @AI.observe I2 obs ai.
Proof.
  split_and!.
  - apply update_knowledge_iter_irrel.
  - apply add_knowledge_iter_irrel.
  - apply observe_iter_irrel.
Qed.

(** ** What the knowledge base never holds *)

Section tidiness.
Context `{SetIter}.
Implicit Types (ai : MinesweeperAI) (c d : cell) (s : Sentence).

Lemma tidy_init (h w : Z) : tidy (AI.init h w).
Proof. split; simpl; [constructor | done | set_solver]. Qed.

Lemma tidy_mark_played ai c :
  tidy ai →
  tidy (AI.mark_safe c (set_moves_made (moves_made ai ∪ {[ c ]}) ai)).
Proof.
  intros [Hk Hmv Hmn]. split; simpl; [| set_solver | done].
  apply Forall_fmap. eapply Forall_impl; [exact Hk|].
  intros s [Hd Hg]. unfold SentenceOps.mark_safe. simpl.
  case_bool_decide as Hin; simpl.
  - split; [set_solver|]. intros d Hd'. apply Hg. set_solver.
  - split; [set_solver|]. done.
Qed.

Lemma tidy_addNewStement ai c n : tidy ai → tidy (AI.addNewStement c n ai).
Proof.
  intros [Hk Hmv Hmn]. rewrite addNewStement_closed.
  split; simpl; [| done | done].
  apply Forall_app. split; [done|]. constructor; [|constructor].
  unfold new_sentence. simpl. split.
  - intros d. rewrite elem_of_filter, !elem_of_difference, elem_of_union.
    tauto.
  - intros d. rewrite elem_of_filter, Is_true_true. tauto.
Qed.

Lemma known_safes_subseteq s : SentenceOps.known_safes s ⊆ cells s.
Proof.
  unfold SentenceOps.known_safes. destruct (count s =? 0); set_solver.
Qed.

Lemma known_mines_subseteq s : SentenceOps.known_mines s ⊆ cells s.
Proof.
  unfold SentenceOps.known_mines.
  destruct ((len (cells s) =? count s) && (0 <? len (cells s))); set_solver.
Qed.

Lemma tidy_update_knowledge ai : tidy ai → tidy (AI.update_knowledge ai).
Proof.
  rewrite update_knowledge_settle. intros [Hk Hmv Hmn].
  rewrite Forall_forall in Hk.
  unfold settle. split; simpl.
  - apply Forall_filter_keep, Forall_fmap, Forall_fmap, Forall_forall.
    intros s Hs. destruct (Hk s Hs) as [Hd Hg]. simpl. split.
    + set_solver.
    + intros d Hd'. apply Hg. set_solver.
  - set_solver.
  - intros d [Hd|[Hd _]%elem_of_difference]%elem_of_union; [by apply Hmn|].
    apply elem_of_found_mines in Hd as (s & Hs & Hd).
    destruct (Hk s Hs) as [_ Hg]. by apply Hg, known_mines_subseteq.
Qed.

(** Every sentence [checkNewStement] adds has its cells among the cells
    of a sentence that was there. *)
Lemma new_statements_cells (K : list Sentence) :
  Forall (λ s, ∃ sC, sC ∈ K ∧ cells s ⊆ cells sC) (AI.new_statements K).
Proof.
  unfold AI.new_statements.
  apply foldl_invariant; [constructor|].
  intros acc ic Hic Hacc. apply foldl_invariant; [done|].
  intros acc' [j sC] Hjc Hacc'. apply elem_of_enumerate in Hjc.
  unfold AI.subtract_step.
  destruct (negb (ic.1 =? j)%nat && bool_decide (cells ic.2 ⊆ cells sC));
    [|done].
  assert ((if 0 <=? count sC - count ic.2
           then mkSentence (cells sC ∖ cells ic.2) (count sC - count ic.2)
           else mkSentence (cells sC ∖ cells ic.2) (count sC - count ic.2))
          = mkSentence (cells sC ∖ cells ic.2) (count sC - count ic.2)) as ->
    by by destruct (0 <=? count sC - count ic.2).
  match goal with |- context [if ?b then _ else _] => destruct b end; [|done].
  apply Forall_app. split; [done|]. constructor; [|constructor].
  exists sC. split; [done|]. simpl. set_solver.
Qed.

Lemma tidy_checkNewStement ai : tidy ai → tidy (AI.checkNewStement ai).
Proof.
  intros [Hk Hmv Hmn]. split; simpl; [| done | done].
  apply Forall_app. split; [done|].
  rewrite Forall_forall in Hk.
  eapply Forall_impl; [apply new_statements_cells|].
  intros s (sC & HsC & Hsub). destruct (Hk sC HsC) as [Hd Hg].
  split; [set_solver|]. intros d Hd'. by apply Hg, Hsub.
Qed.

Lemma tidy_add_knowledge ai c n : tidy ai → tidy (AI.add_knowledge c n ai).
Proof.
  intros Hai. unfold AI.add_knowledge.
  by apply tidy_update_knowledge, tidy_checkNewStement, tidy_update_knowledge,
    tidy_addNewStement, tidy_mark_played.
Qed.

Lemma tidy_observe obs ai : tidy ai → tidy (AI.observe obs ai).
Proof.
  unfold AI.observe. revert ai.
  induction obs as [|o obs IH]; intros ai Hai; simpl; [done|].
  by apply IH, tidy_add_knowledge.
Qed.

Lemma update_knowledge_nonempty ai :
  Forall (λ s, cells s ≠ ∅) (knowledge (AI.update_knowledge ai)).
Proof.
  rewrite update_knowledge_settle. unfold settle. simpl.
  apply Forall_forall. intros s [Hpos _]%list_elem_of_filter.
  by apply len_pos_iff.
Qed.

Lemma observe_nonempty obs (h w : Z) :
  Forall (λ s, cells s ≠ ∅) (knowledge (AI.observe obs (AI.init h w))).
Proof.
  destruct obs as [|o obs _] using rev_ind; [constructor|].
  rewrite observe_app. unfold AI.observe at 1. cbn [foldl].
  unfold AI.add_knowledge. apply update_knowledge_nonempty.
Qed.

Lemma observe_dims obs ai :
  height (AI.observe obs ai) = height ai
  ∧ width (AI.observe obs ai) = width ai.
Proof.
  unfold AI.observe. revert ai.
  induction obs as [|o obs IH]; intros ai; simpl; [done|].
  destruct (IH (AI.add_knowledge o.1 o.2 ai)) as [-> ->].
  unfold AI.add_knowledge. by rewrite !update_knowledge_settle.
Qed.

Lemma observe_moves_made obs ai :
  moves_made (AI.observe obs ai) = moves_made ai ∪ list_to_set obs.*1.
Proof.
  unfold AI.observe. revert ai.
  induction obs as [|o obs IH]; intros ai; simpl; [set_solver|].
  rewrite IH. unfold AI.add_knowledge. rewrite !update_knowledge_settle.
  simpl. set_solver.
Qed.

End tidiness.

(** X9.  After any sequence of calls of [add_knowledge] on a fresh agent,
    every sentence of the knowledge base has a cell, and none of its cells
    is a known safe or a known mine. *)
Theorem knowledge_unclassified `{SetIter} (h w : Z)
    (obs : list (cell * Z)) :
  let ai := AI.observe obs (AI.init h w) in
  Forall (λ s, cells s ≠ ∅ ∧ cells s ## safes ai ∪ mines ai) (knowledge ai).
Proof.
  intros ai.
  pose proof (observe_nonempty obs h w) as Hne.
  destruct (tidy_observe obs _ (tidy_init h w)) as [Hk _ _].
  fold ai in Hne, Hk. rewrite Forall_forall in Hne, Hk.
  apply Forall_forall. intros s Hs. split; [by apply Hne | by apply Hk].
Qed.

(** X10.  After any sequence of calls of [add_knowledge] on a fresh agent
    of height [h] and width [w], every cell [(i, j)] of a sentence and
    every known mine [(i, j)] has [0 <= i < w] and [0 <= j < h]. *)
Theorem knowledge_in_grid `{SetIter} (h w : Z) (obs : list (cell * Z)) :
  let ai := AI.observe obs (AI.init h w) in
  Forall (λ s, ∀ d, d ∈ cells s → 0 <= d.1 < w ∧ 0 <= d.2 < h) (knowledge ai)
  ∧ ∀ d, d ∈ mines ai → 0 <= d.1 < w ∧ 0 <= d.2 < h.
Proof.
  intros ai.
  destruct (tidy_observe obs _ (tidy_init h w)) as [Hk _ Hm].
  destruct (observe_dims obs (AI.init h w)) as [Hh Hw].
  fold ai in Hk, Hm, Hh, Hw. simpl in Hh, Hw.
  assert (∀ d, AI.in_grid ai d = true → 0 <= d.1 < w ∧ 0 <= d.2 < h) as Hg.
  { intros d. unfold AI.in_grid. rewrite Hh, Hw. lia. }
  split.
  - eapply Forall_impl; [exact Hk|]. intros s [_ Hs] d Hd. by apply Hg, Hs.
  - intros d Hd. by apply Hg, Hm.
Qed.

(** X11.  After any sequence of calls of [add_knowledge] on a fresh agent,
    [moves_made] holds exactly the reported cells, and each of them is a
    known safe. *)
Theorem moves_made_reported `{SetIter} (h w : Z) (obs : list (cell * Z)) :
  let ai := AI.observe obs (AI.init h w) in
  moves_made ai = list_to_set obs.*1 ∧ moves_made ai ⊆ safes ai.
Proof.
  intros ai. split.
  - unfold ai. rewrite observe_moves_made. simpl. set_solver.
  - by destruct (tidy_observe obs _ (tidy_init h w)) as [_ Hmv _].
Qed.

(** ** Truthful reports *)

(** X12.  After truthful reports on a square board whose mines are on the
    board, given to a fresh agent: every known mine is a mine of the
    board, no known safe is one, and the count of every sentence is the
    number of mines among its cells, so it lies between zero and the
    number of cells. *)
Theorem classification_sound `{SetIter} (g : Minesweeper)
    (obs : list (cell * Z)) :
  g_height g = g_width g →
  mines_on_board g →
  Forall (truthful g) obs →
  let ai := AI.observe obs (AI.init (g_height g) (g_width g)) in
  mines ai ⊆ g_mines g
  ∧ safes ai ## g_mines g
  ∧ Forall (λ s, count s = len (cells s ∩ g_mines g)
                 ∧ 0 <= count s <= len (cells s))
           (knowledge ai).
Proof.
  intros Hsq Hb Hobs ai.
  pose proof (truthful_sound g obs Hsq Hb Hobs) as Hsound. fold ai in Hsound.
  pose proof (sound_count_bounds _ _ Hsound) as Hbd.
  destruct Hsound as [_ Hs Hm Hk]. split_and!; [done | done |].
  rewrite Forall_forall in Hk, Hbd.
  apply Forall_forall. intros s Hs'. split; [by apply Hk | by apply Hbd].
Qed.

Lemma classification_sound_witness :
  let g := mkGame 3 3 {[ (0, 0) ]} in
  let ai := AI.observe [((0, 1), 1); ((1, 0), 1); ((1, 1), 1)] (AI.init 3 3) in
  mines ai ⊆ g_mines g
  ∧ safes ai ## g_mines g
  ∧ Forall (λ s, count s = len (cells s ∩ g_mines g)
                 ∧ 0 <= count s <= len (cells s))
           (knowledge ai).
Proof.
  intros g ai.
  apply (classification_sound g [((0, 1), 1); ((1, 0), 1); ((1, 1), 1)]).
  - reflexivity.
  - intros d Hd. simpl in Hd. apply elem_of_singleton in Hd. by subst.
  - repeat (apply Forall_cons; split;
      [split; [simpl; intros Hd; apply elem_of_singleton in Hd; discriminate
              | vm_compute; reflexivity]|]).
    apply Forall_nil_2.
Defined.

(** X13.  After truthful reports on a square board whose mines are on the
    board, given to a fresh agent, the cell [make_safe_move] returns, if
    any, is not a mine of the board and was not reported before. *)
Theorem safe_move_not_a_mine `{SetIter} (g : Minesweeper)
    (obs : list (cell * Z)) :
  g_height g = g_width g →
  mines_on_board g →
  Forall (truthful g) obs →
  let ai := AI.observe obs (AI.init (g_height g) (g_width g)) in
  match (AI.make_safe_move ai).1 with
  | Return (Some c) => (c ∉ g_mines g) ∧ c ∉ obs.*1
  | Return None => True
  | Raise _ => False
  end.
Proof.
  intros Hsq Hb Hobs ai.
  destruct (truthful_sound g obs Hsq Hb Hobs) as [_ Hs _ _]. fold ai in Hs.
  assert (moves_made ai = list_to_set obs.*1) as Hmv.
  { unfold ai. rewrite observe_moves_made. simpl. set_solver. }
  unfold AI.make_safe_move. cbn [fst].
  set (S := safes ai ∖ moves_made ai ∖ mines ai).
  destruct (decide (S = ∅)) as [->|Hne].
  - by rewrite first_or_none_empty.
  - destruct (first_or_none_nonempty S Hne) as (c & Hc & ->).
    unfold S in Hc. rewrite Hmv in Hc.
    rewrite !elem_of_difference, elem_of_list_to_set in Hc.
    split; [set_solver | tauto].
Qed.

Lemma safe_move_not_a_mine_witness :
  let g := mkGame 3 3 {[ (0, 0) ]} in
  let obs := [((0, 1), 1); ((1, 0), 1); ((1, 1), 1)] in
  let ai := AI.observe obs (AI.init 3 3) in
  match (AI.make_safe_move ai).1 with
  | Return (Some c) => (c ∉ g_mines g) ∧ c ∉ obs.*1
  | Return None => True
  | Raise _ => False
  end.
Proof.
  intros g obs ai. apply (safe_move_not_a_mine g obs).
  - reflexivity.
  - intros d Hd. simpl in Hd. apply elem_of_singleton in Hd. by subst.
  - repeat (apply Forall_cons; split;
      [split; [simpl; intros Hd; apply elem_of_singleton in Hd; discriminate
              | vm_compute; reflexivity]|]).
    apply Forall_nil_2.
Defined.

(** ** The random move *)

Lemma elem_of_range (lo hi x : Z) : x ∈ range lo hi ↔ lo <= x < hi.
Proof.
  unfold range. rewrite list_elem_of_fmap. split.
  - intros (k & -> & Hk). apply elem_of_seq in Hk. lia.
  - intros Hx. exists (Z.to_nat (x - lo)). split; [lia|].
    apply elem_of_seq. lia.
Qed.

Lemma union_singletons (l : list cell) (X : gset cell) :
  foldl (λ acc d, acc ∪ {[ (d.1, d.2) ]}) X l = X ∪ list_to_set l.
Proof.
  revert X. induction l as [|[i j] l IH]; intros X; simpl; [set_solver|].
  rewrite IH. set_solver.
Qed.

Lemma elem_of_allcells (ai : MinesweeperAI) (d : cell) :
  d ∈ AI.allcells ai ↔ AI.in_grid ai d = true.
Proof.
  unfold AI.allcells.
  rewrite (nested_foldl (λ acc i j, acc ∪ {[ (i, j) ]})).
  rewrite (union_singletons _ ∅).
  rewrite elem_of_union, elem_of_list_to_set, list_elem_of_bind.
  unfold AI.in_grid. split.
  - intros [Hd|(i & Hd & Hi)]; [set_solver|].
    apply list_elem_of_fmap in Hd as (j & -> & Hj).
    apply elem_of_range in Hi, Hj. simpl. lia.
  - intros Hd. right. exists d.1. split.
    + apply list_elem_of_fmap. exists d.2.
      split; [by destruct d | apply elem_of_range; lia].
    + apply elem_of_range. lia.
Qed.

(** X14.  [make_random_move] leaves the agent as it was and never raises.
    The cell [(i, j)] it returns has [0 <= i < width] and
    [0 <= j < height] and is neither a known mine nor a move made; it
    returns [None] exactly when there is no such cell. *)
Theorem make_random_move_spec `{SetIter} (ai : MinesweeperAI) :
  (AI.make_random_move ai).2 = ai
  ∧ match (AI.make_random_move ai).1 with
    | Return (Some c) =>
        (0 <= c.1 < width ai ∧ 0 <= c.2 < height ai)
        ∧ (c ∉ mines ai) ∧ c ∉ moves_made ai
    | Return None =>
        ∀ d, 0 <= d.1 < width ai → 0 <= d.2 < height ai →
             d ∈ mines ai ∨ d ∈ moves_made ai
    | Raise _ => False
    end.
Proof.
  split; [done|]. unfold AI.make_random_move. cbn [fst].
  set (S := (AI.allcells ai ∖ mines ai) ∖ moves_made ai).
  assert (∀ d, d ∈ S ↔ (0 <= d.1 < width ai ∧ 0 <= d.2 < height ai)
                        ∧ (d ∉ mines ai) ∧ d ∉ moves_made ai) as HS.
  { intros d. unfold S.
    rewrite !elem_of_difference, elem_of_allcells. unfold AI.in_grid.
    rewrite !andb_true_iff, !Z.leb_le, !Z.ltb_lt. tauto. }
  destruct (decide (S = ∅)) as [He|Hne].
  - rewrite He, first_or_none_empty. intros d H1 H2.
    destruct (decide (d ∈ mines ai)) as [|Hm]; [by left|].
    destruct (decide (d ∈ moves_made ai)) as [|Hv]; [by right|].
    assert (d ∈ S) as Hd by (apply HS; tauto).
    rewrite He in Hd. by apply not_elem_of_empty in Hd.
  - destruct (first_or_none_nonempty S Hne) as (c & Hc & ->).
    by apply HS.
Qed.

(** ** The subset rule *)

Section subset_rule.
Implicit Types (K acc : list Sentence) (s a b : Sentence).

Lemma sentence_in_true s (l : list Sentence) :
  sentence_in s l = true ↔ s ∈ l.
Proof.
  unfold sentence_in. rewrite existsb_exists. split.
  - intros (e & He & ->%eq_leibniz). by apply list_elem_of_In.
  - intros Hs. exists s. split; [by apply list_elem_of_In|].
    by apply eq_leibniz.
Qed.

Lemma lookup_enumerate_from {A} (l : list A) (n i : nat) (x : A) :
  (i, x) ∈ combine (seq n (length l)) l ↔ (n ≤ i)%nat ∧ l !! (i - n)%nat = Some x.
Proof.
  revert n. induction l as [|y l IH]; intros n; simpl.
  - rewrite elem_of_nil. split; [done|]. by intros [_ ?].
  - rewrite elem_of_cons, IH. split.
    + intros [[= -> ->]|[Hn Hl]].
      * split; [lia|]. by rewrite Nat.sub_diag.
      * split; [lia|]. by replace (i - n)%nat with (S (i - S n)) by lia.
    + intros [Hn Hl]. destruct (decide (i = n)) as [->|Hne].
      * left. rewrite Nat.sub_diag in Hl. simpl in Hl. congruence.
      * right. split; [lia|].
        by replace (i - n)%nat with (S (i - S n)) in Hl by lia.
Qed.

Lemma elem_of_enumerate_iff {A} (l : list A) (i : nat) (x : A) :
  (i, x) ∈ enumerate l ↔ l !! i = Some x.
Proof.
  unfold enumerate. rewrite lookup_enumerate_from, Nat.sub_0_r.
  split; [tauto|]. intros Hl. split; [lia | done].
Qed.

(** One pass of the inner loop body, by cases. *)
Lemma subtract_step_cases K (i j : nat) a b acc :
  AI.subtract_step K i a acc (j, b)
  = if decide (i ≠ j ∧ cells a ⊆ cells b)
    then if decide (mkSentence (cells b ∖ cells a) (count b - count a) ∈ acc
                    ∨ mkSentence (cells b ∖ cells a) (count b - count a) ∈ K)
         then acc
         else acc ++ [mkSentence (cells b ∖ cells a) (count b - count a)]
    else acc.
Proof.
  unfold AI.subtract_step.
  assert ((if 0 <=? count b - count a
           then mkSentence (cells b ∖ cells a) (count b - count a)
           else mkSentence (cells b ∖ cells a) (count b - count a))
          = mkSentence (cells b ∖ cells a) (count b - count a)) as ->
    by by destruct (0 <=? count b - count a).
  set (ns := mkSentence (cells b ∖ cells a) (count b - count a)).
  destruct (decide (i ≠ j ∧ cells a ⊆ cells b)) as [[Hij Hsub]|Hn].
  - assert ((i =? j)%nat = false) as -> by by apply Nat.eqb_neq.
    rewrite bool_decide_eq_true_2 by done. simpl.
    destruct (decide (ns ∈ acc ∨ ns ∈ K)) as [[Hin|Hin]|Hnin].
    + apply sentence_in_true in Hin as ->. done.
    + apply sentence_in_true in Hin as ->. by rewrite andb_false_r.
    + assert (sentence_in ns acc = false) as ->.
      { apply not_true_is_false. rewrite sentence_in_true. tauto. }
      assert (sentence_in ns K = false) as ->.
      { apply not_true_is_false. rewrite sentence_in_true. tauto. }
      done.
  - destruct (i =? j)%nat eqn:Hij; [done|]. apply Nat.eqb_neq in Hij. simpl.
    case_bool_decide as Hsub; [|done]. by destruct Hn.
Qed.

Lemma new_statements_derived K :
  NoDup (AI.new_statements K)
  ∧ Forall (λ s, (s ∉ K) ∧ derived K s) (AI.new_statements K).
Proof.
  unfold AI.new_statements.
  apply (foldl_invariant
           (λ acc, NoDup acc ∧ Forall (λ s, (s ∉ K) ∧ derived K s) acc)).
  { split; constructor. }
  intros acc [i a] Hia Hacc.
  apply (foldl_invariant
           (λ acc, NoDup acc ∧ Forall (λ s, (s ∉ K) ∧ derived K s) acc));
    [done|].
  intros acc' [j b] Hjb [Hnd Hall]. cbn [fst snd].
  rewrite subtract_step_cases.
  apply elem_of_enumerate_iff in Hia, Hjb.
  destruct (decide (i ≠ j ∧ cells a ⊆ cells b)) as [[Hij Hsub]|]; [|done].
  destruct (decide (_ ∨ _)) as [|Hnin]; [done|]. split.
  - apply NoDup_app. split_and!; [done | | apply NoDup_singleton].
    intros s Hs ->%list_elem_of_singleton. tauto.
  - apply Forall_app. split; [done|]. constructor; [|constructor].
    split; [tauto|]. by exists i, j, a, b.
Qed.

(** A loop whose steps only add to the accumulator keeps what a step has
    put there. *)
Lemma foldl_reaches {A B} (f : A → B → A) (R : relation A) `{!PreOrder R}
    (Q : B → A → Prop) :
  (∀ u x, R u (f u x)) →
  (∀ u x, Q x (f u x)) →
  (∀ x u u', R u u' → Q x u → Q x u') →
  ∀ l u, R u (foldl f u l) ∧ ∀ x, x ∈ l → Q x (foldl f u l).
Proof.
  intros HR HQ Hmono l. induction l as [|y l IH]; intros u.
  - split; [done|]. by intros x Hx%elem_of_nil.
  - simpl. destruct (IH (f u y)) as [IHR IHQ]. split.
    + etransitivity; [apply HR | apply IHR].
    + intros x [->|Hx]%elem_of_cons; [|by apply IHQ].
      eapply Hmono; [apply IHR | apply HQ].
Qed.

Lemma new_statements_complete K s :
  derived K s → s ∈ K ∨ s ∈ AI.new_statements K.
Proof.
  intros (i & j & a & b & Hij & Hi & Hj & Hsub & ->).
  set (ns a b := mkSentence (cells b ∖ cells a) (count b - count a)).
  set (Qin (ia : nat * Sentence) (jb : nat * Sentence) acc :=
         ia.1 ≠ jb.1 → cells ia.2 ⊆ cells jb.2 →
         ns ia.2 jb.2 ∈ K ∨ ns ia.2 jb.2 ∈ acc).
  assert (∀ ia acc,
            acc ⊆ foldl (AI.subtract_step K ia.1 ia.2) acc (enumerate K)
            ∧ ∀ jb, jb ∈ enumerate K →
                Qin ia jb (foldl (AI.subtract_step K ia.1 ia.2) acc
                             (enumerate K))) as Hinner.
  { intros [i' a'] acc. cbn [fst snd].
    apply (foldl_reaches _ (⊆) (Qin (i', a'))).
    - intros acc' [j' b']. rewrite subtract_step_cases.
      repeat destruct (decide _); set_solver.
    - intros acc' [j' b'] Hne Hs. cbn [fst snd] in *.
      rewrite subtract_step_cases.
      rewrite decide_True by done.
      destruct (decide (_ ∨ _)) as [[|]|]; [by right | by left |].
      right. apply elem_of_app. right. by apply list_elem_of_singleton.
    - intros jb acc1 acc2 Hsub' HQ Hne Hs.
      destruct (HQ Hne Hs) as [|Hin]; [by left|]. right. by apply Hsub'. }
  unfold AI.new_statements.
  assert (∀ ia, ia ∈ enumerate K → ∀ jb, jb ∈ enumerate K →
            Qin ia jb
              (foldl (λ u (ic : nat * Sentence),
                        foldl (AI.subtract_step K ic.1 ic.2) u (enumerate K))
                     [] (enumerate K))) as Hall.
  { apply (foldl_reaches
             (λ u (ic : nat * Sentence),
                foldl (AI.subtract_step K ic.1 ic.2) u (enumerate K))
             (⊆)
             (λ ia u, ∀ jb, jb ∈ enumerate K → Qin ia jb u)).
    - intros u ia. apply Hinner.
    - intros u ia. apply Hinner.
    - intros ia u1 u2 Hsub' HQ jb Hjb Hne Hs.
      destruct (HQ jb Hjb Hne Hs) as [|Hin]; [by left|].
      right. by apply Hsub'. }
  apply (Hall (i, a)) with (jb := (j, b)); [| | done | done];
    by apply elem_of_enumerate_iff.
Qed.

End subset_rule.

(** X15.  [checkNewStement] changes nothing but the knowledge base, which
    it extends at the end.  Each sentence it appends is what the subset
    rule gives for two sentences at different places of the knowledge
    base; it is equal to no sentence that was there, and no two appended
    sentences are equal. *)
Theorem checkNewStement_derives (ai : MinesweeperAI) :
  ∃ N, AI.checkNewStement ai = set_knowledge (knowledge ai ++ N) ai
       ∧ NoDup N
       ∧ Forall (λ s, (s ∉ knowledge ai) ∧ derived (knowledge ai) s) N.
Proof.
  exists (AI.new_statements (knowledge ai)).
  split; [done|]. apply new_statements_derived.
Qed.

(** X16.  After [checkNewStement] the knowledge base holds, for every two
    sentences at different places of the knowledge base as it was before
    the call, with the cells of the first among the cells of the second,
    the sentence the subset rule gives for them, whatever the sign of its
    count. *)
Theorem checkNewStement_complete (ai : MinesweeperAI) (s : Sentence) :
  derived (knowledge ai) s → s ∈ knowledge (AI.checkNewStement ai).
Proof.
  intros Hs. unfold AI.checkNewStement. simpl.
  apply elem_of_app. by apply new_statements_complete.
Qed.

Lemma checkNewStement_complete_witness :
  let ai := mkAI 3 3 ∅ ∅ ∅
              [mkSentence {[ (0, 0); (0, 1) ]} 1;
               mkSentence {[ (0, 0); (0, 1); (0, 2) ]} 1] in
  mkSentence {[ (0, 2) ]} 0 ∈ knowledge (AI.checkNewStement ai).
Proof.
  intros ai.
  assert (mkSentence {[ (0, 2) ]} 0
          = mkSentence ({[ (0, 0); (0, 1); (0, 2) ]} ∖ {[ (0, 0); (0, 1) ]})
              (1 - 1)) as ->.
  { reflexivity. }
  apply (checkNewStement_complete ai).
  exists 0%nat, 1%nat, (mkSentence {[ (0, 0); (0, 1) ]} 1),
    (mkSentence {[ (0, 0); (0, 1); (0, 2) ]} 1).
  split_and!; [lia | reflexivity | reflexivity | | reflexivity].
  simpl. set_solver.
Defined.

(** X17.  When the count of every sentence of the knowledge base is the
    number of mines among its cells, the same holds of every sentence
    after [checkNewStement]. *)
Theorem checkNewStement_keeps_truth (M : gset cell) (ai : MinesweeperAI) :
  Forall (λ s, count s = len (cells s ∩ M)) (knowledge ai) →
  Forall (λ s, count s = len (cells s ∩ M))
         (knowledge (AI.checkNewStement ai)).
Proof.
  intros HK. unfold AI.checkNewStement. simpl.
  apply Forall_app. split; [done|]. by apply sound_new_statements.
Qed.

Lemma checkNewStement_keeps_truth_witness :
  let M : gset cell := {[ (0, 0) ]} in
  let ai := mkAI 3 3 ∅ ∅ ∅
              [mkSentence {[ (0, 0); (0, 1) ]} 1;
               mkSentence {[ (0, 0); (0, 1); (0, 2) ]} 1] in
  Forall (λ s, count s = len (cells s ∩ M))
         (knowledge (AI.checkNewStement ai)).
Proof.
  intros M ai. apply (checkNewStement_keeps_truth M ai).
  repeat constructor.
Defined.

(** ** The reported cell *)

Section reported.
Context `{SetIter}.
Implicit Types (ai : MinesweeperAI) (c : cell).

Lemma settle_cells_subseteq ai :
  Forall (λ s, ∃ s0, s0 ∈ knowledge ai ∧ cells s ⊆ cells s0)
         (knowledge (settle ai)).
Proof.
  unfold settle. cbn [knowledge]. apply Forall_forall.
  intros s [_ Hs]%list_elem_of_filter.
  apply list_elem_of_fmap in Hs as (s1 & -> & Hs).
  apply list_elem_of_fmap in Hs as (s0 & -> & Hs).
  exists s0. split; [done|]. cbn [cells strike_mine strike_safe].
  intros d Hd. apply elem_of_difference in Hd as [Hd _].
  by apply elem_of_difference in Hd as [Hd _].
Qed.

Lemma absent_update_knowledge ai c :
  Forall (λ s, c ∉ cells s) (knowledge ai) →
  Forall (λ s, c ∉ cells s) (knowledge (AI.update_knowledge ai)).
Proof.
  intros Hk. rewrite update_knowledge_settle. rewrite Forall_forall in Hk.
  eapply Forall_impl; [apply settle_cells_subseteq|].
  intros s (s0 & Hs0 & Hsub) Hc. by apply (Hk s0 Hs0), Hsub.
Qed.

Lemma absent_checkNewStement ai c :
  Forall (λ s, c ∉ cells s) (knowledge ai) →
  Forall (λ s, c ∉ cells s) (knowledge (AI.checkNewStement ai)).
Proof.
  intros Hk. unfold AI.checkNewStement. cbn [knowledge set_knowledge].
  apply Forall_app. split; [done|]. rewrite Forall_forall in Hk.
  eapply Forall_impl; [apply new_statements_cells|].
  intros s (sC & HsC & Hsub) Hc. by apply (Hk sC HsC), Hsub.
Qed.

Lemma absent_addNewStement ai c n :
  Forall (λ s, c ∉ cells s) (knowledge ai) →
  Forall (λ s, c ∉ cells s) (knowledge (AI.addNewStement c n ai)).
Proof.
  intros Hk. rewrite addNewStement_closed. cbn [knowledge set_knowledge].
  apply Forall_app. split; [done|]. constructor; [|constructor].
  unfold new_sentence. cbn [cells].
  rewrite elem_of_filter, !elem_of_difference, elem_of_neighbours.
  unfold adjacent. tauto.
Qed.

Lemma absent_mark_safe ai c :
  Forall (λ s, c ∉ cells s) (knowledge (AI.mark_safe c ai)).
Proof.
  unfold AI.mark_safe. cbn [knowledge set_knowledge].
  apply Forall_fmap, Forall_forall. intros s _.
  unfold SentenceOps.mark_safe. cbn [compose].
  case_bool_decide as Hin; [|done]. cbn [cells].
  intros [_ Hn]%elem_of_difference. apply Hn. by apply elem_of_singleton.
Qed.

Lemma update_knowledge_dims ai :
  height (AI.update_knowledge ai) = height ai
  ∧ width (AI.update_knowledge ai) = width ai.
Proof. by rewrite update_knowledge_settle. Qed.

End reported.

(** X18.  Whatever the agent and the count, after [add_knowledge] for a
    cell that cell is a move made and a known safe and is in no sentence;
    every sentence has a cell; [height] and [width] are as before. *)
Theorem add_knowledge_records_move `{SetIter} (c : cell) (n : Z)
    (ai : MinesweeperAI) :
  let ai' := AI.add_knowledge c n ai in
  c ∈ moves_made ai' ∧ c ∈ safes ai'
  ∧ Forall (λ s, cells s ≠ ∅ ∧ c ∉ cells s) (knowledge ai')
  ∧ height ai' = height ai ∧ width ai' = width ai.
Proof.
  intros ai'. unfold ai', AI.add_knowledge.
  set (a1 := AI.mark_safe c (set_moves_made (moves_made ai ∪ {[ c ]}) ai)).
  set (a2 := AI.addNewStement c n a1).
  set (a3 := AI.update_knowledge a2).
  set (a4 := AI.checkNewStement a3).
  assert (c ∈ moves_made a1 ∧ c ∈ safes a1) as [Hmv Hsf].
  { unfold a1, AI.mark_safe. cbn [moves_made safes set_knowledge set_safes
      set_moves_made].
    split; apply elem_of_union; right; by apply elem_of_singleton. }
  assert (grows a1 (AI.update_knowledge a4)) as (Gmv & Gsf & _).
  { apply (grows_trans _ a3); [|apply (grows_trans _ a4)].
    - apply (grows_trans _ a2); [by unfold grows|].
      apply update_knowledge_grows.
    - by unfold grows.
    - apply update_knowledge_grows. }
  assert (Forall (λ s, c ∉ cells s) (knowledge (AI.update_knowledge a4)))
    as Habs.
  { apply absent_update_knowledge, absent_checkNewStement,
      absent_update_knowledge, absent_addNewStement, absent_mark_safe. }
  pose proof (update_knowledge_nonempty a4) as Hne.
  split_and!.
  - by apply Gmv.
  - by apply Gsf.
  - rewrite Forall_forall in Habs, Hne. apply Forall_forall.
    intros s Hs. split; [by apply Hne | by apply Habs].
  - destruct (update_knowledge_dims a4) as [-> _].
    unfold a4, AI.checkNewStement. cbn [height set_knowledge]. unfold a3.
    by destruct (update_knowledge_dims a2) as [-> _].
  - destruct (update_knowledge_dims a4) as [_ ->].
    unfold a4, AI.checkNewStement. cbn [width set_knowledge]. unfold a3.
    by destruct (update_knowledge_dims a2) as [_ ->].
Qed.

(** * The board *)

(** ** Indexing *)

Section indexing.
Context {A : Type}.
Implicit Types (l : list A) (i : Z) (x : A).

Lemma norm_index_in (n : nat) i :
  0 <= i < Z.of_nat n → norm_index n i = Some (Z.to_nat i).
Proof.
  intros Hi. unfold norm_index.
  assert ((0 <=? i) = true) as -> by lia.
  by assert ((i <? Z.of_nat n) = true) as -> by lia.
Qed.

Lemma norm_index_wrap (n : nat) i :
  - Z.of_nat n <= i < 0 → norm_index n i = norm_index n (Z.of_nat n + i).
Proof.
  intros Hi. unfold norm_index.
  assert ((0 <=? i) = false) as -> by lia.
  assert ((0 <=? Z.of_nat n + i) = true) as -> by lia.
  by assert ((Z.of_nat n + i <? Z.of_nat n) = true) as -> by lia.
Qed.

Lemma norm_index_out (n : nat) i :
  i < - Z.of_nat n ∨ Z.of_nat n <= i → norm_index n i = None.
Proof.
  intros Hi. unfold norm_index.
  destruct (0 <=? i) eqn:H0.
  - by assert ((i <? Z.of_nat n) = false) as -> by lia.
  - by assert ((0 <=? Z.of_nat n + i) = false) as -> by lia.
Qed.

Lemma getitem_in l i :
  0 <= i < Z.of_nat (length l) → getitem l i = l !! Z.to_nat i.
Proof. intros Hi. unfold getitem. by rewrite norm_index_in. Qed.

Lemma setitem_in l i x :
  0 <= i < Z.of_nat (length l) → setitem l i x = Some (<[ Z.to_nat i := x ]> l).
Proof. intros Hi. unfold setitem. by rewrite norm_index_in. Qed.

Lemma append_loop {B} (x : A) (l : list B) (a : list A) :
  foldl (λ acc _, acc ++ [x]) a l = a ++ replicate (length l) x.
Proof.
  revert a. induction l as [|y l IH]; intros a; simpl.
  - by rewrite app_nil_r.
  - rewrite IH. by rewrite <- app_assoc.
Qed.

End indexing.

Lemma length_range (lo hi : Z) : length (range lo hi) = Z.to_nat (hi - lo).
Proof. unfold range. by rewrite length_fmap, length_seq. Qed.

Lemma empty_board_replicate (h w : Z) :
  Board.empty_board h w
  = replicate (Z.to_nat h) (replicate (Z.to_nat w) false).
Proof.
  unfold Board.empty_board.
  rewrite (append_loop false (range 0 w) []). simpl.
  rewrite (append_loop _ (range 0 h) []). simpl.
  rewrite !length_range. by rewrite !Z.sub_0_r.
Qed.

(** ** Building the board *)

Section building.
Implicit Types (h w m i j : Z) (ms : gset cell) (board : list (list bool))
  (rs : list Z).

Lemma shaped_empty h w : shaped h w ∅ (Board.empty_board h w).
Proof.
  rewrite empty_board_replicate. split.
  - rewrite length_replicate. lia.
  - apply Forall_replicate. rewrite length_replicate. lia.
  - intros i j Hi Hj. unfold Board.read.
    rewrite getitem_in by (rewrite length_replicate; lia).
    rewrite lookup_replicate_2 by lia. simpl.
    rewrite getitem_in by (rewrite length_replicate; lia).
    rewrite lookup_replicate_2 by lia.
    by rewrite bool_decide_eq_false_2 by set_solver.
  - set_solver.
Qed.

Lemma shaped_row h w ms board i :
  shaped h w ms board → 0 <= i < h →
  ∃ row, board !! Z.to_nat i = Some row ∧ Z.of_nat (length row) = Z.max 0 w.
Proof.
  intros [Hr Hc _ _] Hi.
  destruct (lookup_lt_is_Some_2 board (Z.to_nat i)) as [row Hrow]; [lia|].
  exists row. split; [done|].
  rewrite Forall_forall in Hc.
  apply Hc. by eapply list_elem_of_lookup_2.
Qed.

Lemma read_in h w ms board i j :
  shaped h w ms board → 0 <= i < h → 0 <= j < w →
  Board.read board i j
  = row ← board !! Z.to_nat i; row !! Z.to_nat j.
Proof.
  intros Hsh Hi Hj.
  destruct (shaped_row h w ms board i Hsh Hi) as (row & Hrow & Hlen).
  destruct Hsh as [Hr _ _ _]. unfold Board.read.
  rewrite getitem_in by lia. rewrite Hrow. simpl.
  by rewrite getitem_in by lia.
Qed.

Lemma shaped_write h w ms board i j :
  shaped h w ms board → 0 <= i < h → 0 <= j < w →
  ∃ board', Board.write_true board i j = Some board'
            ∧ shaped h w (ms ∪ {[ (i, j) ]}) board'.
Proof.
  intros Hsh Hi Hj.
  destruct (shaped_row h w ms board i Hsh Hi) as (row & Hrow & Hlen).
  pose proof Hsh as [Hr Hc Hread Hms].
  exists (<[ Z.to_nat i := <[ Z.to_nat j := true ]> row ]> board).
  split.
  - unfold Board.write_true. rewrite getitem_in by lia. rewrite Hrow. simpl.
    rewrite setitem_in by lia. simpl. by rewrite setitem_in by lia.
  - split.
    + by rewrite length_insert.
    + apply Forall_insert; [done|]. by rewrite length_insert.
    + intros i' j' Hi' Hj'.
      unfold Board.read.
      rewrite getitem_in by (rewrite length_insert; lia).
      destruct (decide (i' = i)) as [->|Hne].
      * rewrite list_lookup_insert_eq by lia. simpl.
        rewrite getitem_in by (rewrite length_insert; lia).
        destruct (decide (j' = j)) as [->|Hnj].
        -- rewrite list_lookup_insert_eq by lia.
           by rewrite bool_decide_eq_true_2 by set_solver.
        -- rewrite list_lookup_insert_ne by lia.
           specialize (Hread i j' Hi' Hj').
           rewrite (read_in h w ms board i j' Hsh Hi' Hj'), Hrow in Hread.
           simpl in Hread. rewrite Hread.
           f_equal. apply bool_decide_ext.
           rewrite elem_of_union, elem_of_singleton.
           split; [tauto|]. intros [|Heq]; [done | congruence].
      * rewrite list_lookup_insert_ne by lia.
        specialize (Hread i' j' Hi' Hj').
        rewrite (read_in h w ms board i' j' Hsh Hi' Hj') in Hread.
        destruct (board !! Z.to_nat i') as [row'|] eqn:Hrow'; [|done].
        simpl in *.
        assert (Z.of_nat (length row') = Z.max 0 w) as Hlen'.
        { rewrite Forall_forall in Hc. apply Hc.
          by eapply list_elem_of_lookup_2. }
        rewrite getitem_in by lia. rewrite Hread.
        f_equal. apply bool_decide_ext.
        rewrite elem_of_union, elem_of_singleton.
        split; [tauto|]. intros [|Heq]; [done | congruence].
    + intros d [Hd|Hd]%elem_of_union; [by apply Hms|].
      apply elem_of_singleton in Hd as ->. simpl. lia.
Qed.

Lemma list_pair_ind (P : list Z → Prop) :
  P [] → (∀ r, P [r]) → (∀ r1 r2 rs, P rs → P (r1 :: r2 :: rs)) →
  ∀ rs, P rs.
Proof.
  intros H0 H1 H2 rs.
  assert (P rs ∧ ∀ r, P (r :: rs)) as [? _]; [|done].
  induction rs as [|r rs [IH1 IH2]]; [by split|].
  split; [apply IH2|]. intros r'. by apply H2.
Qed.

(** One round of the loop on a board in shape, with positive sizes. *)
Lemma place_mines_round h w m ms board r1 r2 rs :
  0 < h → 0 < w → shaped h w ms board → len ms ≠ m →
  let d := (r1 mod h, r2 mod w) in
  ∃ board',
    shaped h w (ms ∪ {[ d ]}) board'
    ∧ Board.place_mines h w m ms board (r1 :: r2 :: rs)
      = if bool_decide (d ∈ ms)
        then Board.place_mines h w m ms board rs
        else Board.place_mines h w m (ms ∪ {[ d ]}) board' rs.
Proof.
  intros Hh Hw Hsh Hlen d.
  assert (0 <= r1 mod h < h) as Hi by (apply Z.mod_pos_bound; lia).
  assert (0 <= r2 mod w < w) as Hj by (apply Z.mod_pos_bound; lia).
  destruct (shaped_write h w ms board _ _ Hsh Hi Hj) as (board' & Hw' & Hsh').
  exists board'. split; [done|]. cbn [Board.place_mines].
  assert ((len ms =? m) = false) as -> by lia.
  assert ((h <=? 0) = false) as -> by lia.
  assert ((w <=? 0) = false) as -> by lia.
  rewrite (shaped_read h w ms board Hsh _ _ Hi Hj). fold d.
  case_bool_decide; [done|]. by rewrite Hw'.
Qed.

(** What the loop gives on a board in shape, with positive sizes. *)
Lemma place_mines_outcome h w m rs :
  0 < h → 0 < w →
  ∀ ms board, shaped h w ms board → len ms <= m →
  match Board.place_mines h w m ms board rs with
  | Finished (ms', board') =>
      shaped h w ms' board' ∧ len ms' = m
      ∧ m <= len (ms ∪ list_to_set (draws h w rs))
  | Failed _ => False
  | OutOfRandom => len (ms ∪ list_to_set (draws h w rs)) < m
  end.
Proof.
  intros Hh Hw. induction rs as [|r|r1 r2 rs IH] using list_pair_ind;
    intros ms board Hsh Hle.
  - cbn [Board.place_mines draws list_to_set].
    rewrite (right_id_L ∅ (∪)).
    destruct (len ms =? m) eqn:He; [split_and!; [done | lia | lia]|].
    assert ((h <=? 0) = false) as -> by lia. lia.
  - cbn [Board.place_mines draws list_to_set].
    rewrite (right_id_L ∅ (∪)).
    destruct (len ms =? m) eqn:He; [split_and!; [done | lia | lia]|].
    assert ((h <=? 0) = false) as -> by lia.
    assert ((w <=? 0) = false) as -> by lia. lia.
  - destruct (decide (len ms = m)) as [He|Hne].
    { cbn [Board.place_mines]. assert ((len ms =? m) = true) as -> by lia.
      split_and!; [done | done |].
      rewrite <- He. apply len_subseteq. set_solver. }
    destruct (place_mines_round h w m ms board r1 r2 rs Hh Hw Hsh Hne)
      as (board' & Hsh' & ->).
    cbn [draws list_to_set]. set (d := (r1 mod h, r2 mod w)).
    case_bool_decide as Hd.
    + match goal with |- context [len ?X] =>
        assert (X = ms ∪ list_to_set (draws h w rs)) as -> by set_solver end.
      by apply IH.
    + match goal with |- context [len ?X] =>
        assert (X = (ms ∪ {[ d ]}) ∪ list_to_set (draws h w rs)) as ->
          by set_solver end.
      apply IH; [done|].
      rewrite (union_comm_L ms), len_insert_fresh by done. lia.
Qed.

(** Whatever the sizes, the loop raises no [IndexError] on a board in
    shape, and when it ends the board is in shape and holds the number of
    mines asked for. *)
Lemma place_mines_finished h w m rs :
  ∀ ms board, shaped h w ms board →
  match Board.place_mines h w m ms board rs with
  | Finished (ms', board') => shaped h w ms' board' ∧ len ms' = m
  | Failed e => e = ValueError ∧ len ms ≠ m ∧ (h <= 0 ∨ w <= 0)
  | OutOfRandom => len ms ≠ m
  end.
Proof.
  intros ms board Hsh.
  destruct (decide (len ms = m)) as [He|Hne].
  { destruct rs; cbn [Board.place_mines];
      assert ((len ms =? m) = true) as -> by lia; done. }
  destruct (decide (h <= 0)) as [Hh|Hh].
  { destruct rs; cbn [Board.place_mines];
      assert ((len ms =? m) = false) as -> by lia;
      assert ((h <=? 0) = true) as -> by lia; split_and!; auto. }
  destruct (decide (w <= 0)) as [Hw|Hw].
  { destruct rs as [|r1 [|r2 rs]]; cbn [Board.place_mines];
      assert ((len ms =? m) = false) as -> by lia;
      assert ((h <=? 0) = false) as -> by lia;
      [done | |]; assert ((w <=? 0) = true) as -> by lia; split_and!; auto. }
  pose proof (place_mines_outcome h w m rs ltac:(lia) ltac:(lia) ms board Hsh)
    as Hout.
  destruct (decide (len ms <= m)) as [Hle|Hgt].
  { specialize (Hout Hle).
    destruct (Board.place_mines h w m ms board rs) as [[ms' b']| |];
      [tauto | done | done]. }
  clear Hout. revert ms board Hsh Hne Hgt.
  induction rs as [|r|r1 r2 rs IH] using list_pair_ind;
    intros ms board Hsh Hne Hgt.
  - cbn [Board.place_mines]. assert ((len ms =? m) = false) as -> by lia.
    by assert ((h <=? 0) = false) as -> by lia.
  - cbn [Board.place_mines]. assert ((len ms =? m) = false) as -> by lia.
    assert ((h <=? 0) = false) as -> by lia.
    by assert ((w <=? 0) = false) as -> by lia.
  - destruct (place_mines_round h w m ms board r1 r2 rs ltac:(lia) ltac:(lia)
                Hsh Hne) as (board' & Hsh' & ->).
    set (d := (r1 mod h, r2 mod w)) in *.
    case_bool_decide as Hd.
    + by apply IH.
    + assert (len (ms ∪ {[ d ]}) = 1 + len ms) as Hlen.
      { by rewrite (union_comm_L ms), len_insert_fresh. }
      specialize (IH (ms ∪ {[ d ]}) board' Hsh' ltac:(lia) ltac:(lia)).
      destruct (Board.place_mines h w m (ms ∪ {[ d ]}) board' rs)
        as [[ms' b']| |]; [done | | done].
      destruct IH as (-> & _ & Hor). split_and!; [done | done | done].
Qed.

End building.

(** ** The built board *)

Section built.
Implicit Types (h w m i j : Z) (ms : gset cell) (board : list (list bool))
  (rs : list Z) (st : MinesweeperState).

Lemma init_finished h w m rs st :
  Board.init h w m rs = Finished st →
  st_height st = h ∧ st_width st = w ∧ st_mines_found st = ∅
  ∧ shaped h w (st_mines st) (st_board st) ∧ len (st_mines st) = m.
Proof.
  unfold Board.init. intros Hst.
  pose proof (place_mines_finished h w m rs ∅ _ (shaped_empty h w)) as Hpl.
  destruct (Board.place_mines h w m ∅ (Board.empty_board h w) rs)
    as [[ms board]| |]; [|done|done].
  injection Hst as <-. simpl. tauto.
Qed.

Lemma len_list_to_set_le (l : list cell) :
  len (list_to_set l) <= Z.of_nat (length l).
Proof.
  unfold len. apply inj_le.
  induction l as [|d l IH]; cbn [list_to_set length].
  - by rewrite size_empty.
  - rewrite size_union_alt, size_singleton.
    assert (size (list_to_set l ∖ {[ d ]} : gset cell)
            ≤ size (list_to_set l : gset cell))%nat
      by (apply subseteq_size; set_solver).
    lia.
Qed.

Lemma length_pairs {A B} (l1 : list A) (l2 : list B) :
  length ((x ← l1; (λ y, (x, y)) <$> l2) : list (A * B))
  = (length l1 * length l2)%nat.
Proof.
  induction l1 as [|x l1 IH]; [done|].
  rewrite bind_cons, length_app, length_fmap, IH. simpl. lia.
Qed.

Lemma shaped_count h w ms board :
  shaped h w ms board → 0 <= len ms <= Z.max 0 h * Z.max 0 w.
Proof.
  intros [_ _ _ Hms]. split; [apply len_nonneg|].
  set (G := i ← range 0 h; (λ j, (i, j)) <$> range 0 w).
  transitivity (len (list_to_set G)).
  - apply len_subseteq. intros d Hd. destruct (Hms d Hd) as [H1 H2].
    apply elem_of_list_to_set, list_elem_of_bind. exists d.1. split.
    + apply list_elem_of_fmap. exists d.2.
      split; [by destruct d | by apply elem_of_range].
    + by apply elem_of_range.
  - etransitivity; [apply len_list_to_set_le|].
    unfold G, cell. rewrite length_pairs, !length_range. lia.
Qed.

Lemma is_mine_on_board h w ms board st i j :
  shaped h w ms board → st_board st = board →
  0 <= i < h → 0 <= j < w →
  Board.is_mine st (i, j) = Some (bool_decide ((i, j) ∈ ms)).
Proof.
  intros Hsh <- Hi Hj. unfold Board.is_mine. simpl.
  by apply (shaped_read h w ms).
Qed.

(** Reading the board and reading the set of mines give the same count. *)
Lemma nearby_step_board h w st c (n : Z) i j :
  st_height st = h → st_width st = w →
  shaped h w (st_mines st) (st_board st) →
  Board.nearby_step st c (Some n) i j
  = Some (Game.nearby_step (mkGame h w (st_mines st)) c n i j).
Proof.
  intros Hh Hw Hsh. unfold Board.nearby_step, Game.nearby_step,
    Game.in_bounds, Game.is_mine. simpl. rewrite Hh, Hw.
  case_bool_decide; [done|].
  destruct ((0 <=? i) && (i <? h) && (0 <=? j) && (j <? w)) eqn:Hb; [|done].
  rewrite (shaped_read h w _ _ Hsh) by lia. done.
Qed.

Lemma nearby_fold_board h w st c (l : list (Z * Z)) (n : Z) :
  st_height st = h → st_width st = w →
  shaped h w (st_mines st) (st_board st) →
  foldl (λ acc p, Board.nearby_step st c acc p.1 p.2) (Some n) l
  = Some (foldl (λ acc p,
                   Game.nearby_step (mkGame h w (st_mines st)) c acc p.1 p.2)
                n l).
Proof.
  intros Hh Hw Hsh. revert n. induction l as [|p l IH]; intros n; [done|].
  cbn [foldl]. rewrite (nearby_step_board h w) by done. apply IH.
Qed.

Lemma nearby_mines_board h w st c :
  st_height st = h → st_width st = w →
  shaped h w (st_mines st) (st_board st) →
  Board.nearby_mines st c
  = Some (Game.nearby_mines (mkGame h w (st_mines st)) c).
Proof.
  intros Hh Hw Hsh. unfold Board.nearby_mines, Game.nearby_mines.
  rewrite (nested_foldl (λ acc i j, Board.nearby_step st c acc i j)).
  rewrite (nested_foldl
             (λ acc i j,
                Game.nearby_step (mkGame h w (st_mines st)) c acc i j)).
  by apply nearby_fold_board.
Qed.

End built.

(** X19.  When [Minesweeper.__init__] ends, the object has the sizes
    asked for, as many mines as asked for, all of them on the board, a
    board of [height] rows of [width] entries that is [True] exactly at
    the mines, and no mine found; [won] is true of it exactly when no
    mine was asked for. *)
Theorem init_finished_spec (h w m : Z) (rs : list Z) (st : MinesweeperState) :
  Board.init h w m rs = Finished st →
  st_height st = h ∧ st_width st = w
  ∧ len (st_mines st) = m
  ∧ shaped h w (st_mines st) (st_board st)
  ∧ st_mines_found st = ∅
  ∧ Board.won st = bool_decide (m = 0).
Proof.
  intros Hst.
  destruct (init_finished h w m rs st Hst) as (Hh & Hw & Hf & Hsh & Hlen).
  split_and!; [done | done | done | done | done |].
  unfold Board.won. rewrite Hf. apply bool_decide_ext. rewrite <- Hlen.
  split.
  - intros <-. apply len_empty.
  - intros Hz. symmetry. apply dec_stable. intros Hne.
    apply len_pos_iff in Hne. lia.
Qed.

Lemma init_finished_spec_witness :
  let st := mkState 2 2 {[ (1, 1) ]} [[false; false]; [false; true]] ∅ in
  st_height st = 2 ∧ st_width st = 2
  ∧ len (st_mines st) = 1
  ∧ shaped 2 2 (st_mines st) (st_board st)
  ∧ st_mines_found st = ∅
  ∧ Board.won st = bool_decide (1 = 0).
Proof.
  intros st. apply (init_finished_spec 2 2 1 [3; 5] st).
  vm_compute. reflexivity.
Defined.

(** X20.  With positive sizes and a number of mines that is not negative,
    [Minesweeper.__init__] raises nothing, and it ends on a supply of
    random numbers exactly when the cells drawn from the supply include
    as many different cells as mines were asked for. *)
Theorem init_ends_iff (h w m : Z) (rs : list Z) :
  0 < h → 0 < w → 0 <= m →
  match Board.init h w m rs with
  | Finished st => m <= len (list_to_set (draws h w rs))
  | Failed _ => False
  | OutOfRandom => len (list_to_set (draws h w rs)) < m
  end.
Proof.
  intros Hh Hw Hm. unfold Board.init.
  pose proof (place_mines_outcome h w m rs Hh Hw ∅ _ (shaped_empty h w)) as Ho.
  rewrite len_empty, (left_id_L ∅ (∪)) in Ho. specialize (Ho Hm).
  destruct (Board.place_mines h w m ∅ (Board.empty_board h w) rs)
    as [[ms board]| |]; [tauto | done | done].
Qed.

Lemma init_ends_iff_witness :
  match Board.init 2 2 2 [0; 1; 0; 1; 3; 2] with
  | Finished st => 2 <= len (list_to_set (draws 2 2 [0; 1; 0; 1; 3; 2]))
  | Failed _ => False
  | OutOfRandom => len (list_to_set (draws 2 2 [0; 1; 0; 1; 3; 2])) < 2
  end.
Proof. apply (init_ends_iff 2 2 2 [0; 1; 0; 1; 3; 2]); lia. Defined.

(** X21.  [Minesweeper.__init__] with no mine asked for ends at once, on
    any sizes, with the empty board.  With mines asked for, it raises
    [ValueError] when the height is not positive, and also when the height
    is positive and the width is not, as soon as the supply has given the
    row index.  With positive sizes and a negative number of mines, or
    more mines than the board has cells, it never ends: on every supply
    the loop is still running, without an exception, when the supply is
    used up. *)
Theorem init_edge_cases (h w m : Z) (rs : list Z) :
  (m = 0 →
   Board.init h w m rs
   = Finished (mkState h w ∅ (Board.empty_board h w) ∅))
  ∧ (m ≠ 0 → h <= 0 → Board.init h w m rs = Failed ValueError)
  ∧ (m ≠ 0 → 0 < h → w <= 0 → rs ≠ [] →
     Board.init h w m rs = Failed ValueError)
  ∧ (0 < h → 0 < w → m < 0 ∨ h * w < m →
     Board.init h w m rs = OutOfRandom).
Proof.
  split_and!.
  - intros ->. unfold Board.init. destruct rs; cbn [Board.place_mines];
      by rewrite len_empty.
  - intros Hm Hh. unfold Board.init. destruct rs; cbn [Board.place_mines];
      rewrite len_empty;
      assert ((0 =? m) = false) as -> by lia;
      by assert ((h <=? 0) = true) as -> by lia.
  - intros Hm Hh Hw Hrs. unfold Board.init.
    destruct rs as [|r1 rs]; [done|]. cbn [Board.place_mines].
    rewrite len_empty.
    assert ((0 =? m) = false) as -> by lia.
    assert ((h <=? 0) = false) as -> by lia.
    by assert ((w <=? 0) = true) as -> by lia.
  - intros Hh Hw Hm. unfold Board.init.
    pose proof (place_mines_finished h w m rs ∅ _ (shaped_empty h w)) as Hpl.
    destruct (Board.place_mines h w m ∅ (Board.empty_board h w) rs)
      as [[ms board]| |]; [| |done].
    + destruct Hpl as [Hsh Hlen].
      pose proof (shaped_count h w _ _ Hsh). lia.
    + destruct Hpl as (_ & _ & Hor). lia.
Qed.

Lemma init_edge_cases_witness :
  (3 = 0 →
   Board.init 1 1 3 [0; 0; 0; 0]
   = Finished (mkState 1 1 ∅ (Board.empty_board 1 1) ∅))
  ∧ (3 ≠ 0 → 1 <= 0 → Board.init 1 1 3 [0; 0; 0; 0] = Failed ValueError)
  ∧ (3 ≠ 0 → 0 < 1 → 1 <= 0 → [0; 0; 0; 0] ≠ [] →
     Board.init 1 1 3 [0; 0; 0; 0] = Failed ValueError)
  ∧ (0 < 1 → 0 < 1 → 3 < 0 ∨ 1 * 1 < 3 →
     Board.init 1 1 3 [0; 0; 0; 0] = OutOfRandom).
Proof. apply (init_edge_cases 1 1 3 [0; 0; 0; 0]). Defined.

(** X22.  On an object [Minesweeper.__init__] built, [is_mine] of a cell
    of the board tells whether the cell is in [mines].  A row index from
    [-height] to [-1] is read as that index plus [height], and a column
    index from [-width] to [-1] as that index plus [width].  A row index
    below [-height] or from [height] on raises [IndexError], and so does,
    in a row of the board, a column index below [-width] or from [width]
    on. *)
Theorem is_mine_spec (h w m : Z) (rs : list Z) (st : MinesweeperState)
    (i j : Z) :
  Board.init h w m rs = Finished st →
  (0 <= i < h → 0 <= j < w →
   Board.is_mine st (i, j) = Some (bool_decide ((i, j) ∈ st_mines st)))
  ∧ (- h <= i < 0 → Board.is_mine st (i, j) = Board.is_mine st (h + i, j))
  ∧ (0 <= i < h → - w <= j < 0 →
     Board.is_mine st (i, j) = Board.is_mine st (i, w + j))
  ∧ (i < - h ∨ Z.max 0 h <= i → Board.is_mine st (i, j) = None)
  ∧ (0 <= i < h → j < - w ∨ Z.max 0 w <= j → Board.is_mine st (i, j) = None).
Proof.
  intros Hst.
  destruct (init_finished h w m rs st Hst) as (_ & _ & _ & Hsh & _).
  pose proof Hsh as [Hr _ _ _].
  split_and!.
  - intros Hi Hj. by apply (is_mine_on_board h w (st_mines st) (st_board st)).
  - intros Hi. unfold Board.is_mine, Board.read, getitem. simpl.
    rewrite norm_index_wrap by lia.
    by replace (Z.of_nat (length (st_board st)) + i) with (h + i) by lia.
  - intros Hi Hj.
    destruct (shaped_row h w _ _ i Hsh Hi) as (row & Hrow & Hlen).
    unfold Board.is_mine, Board.read. simpl.
    rewrite getitem_in by lia. rewrite Hrow. simpl. unfold getitem.
    rewrite norm_index_wrap by lia.
    by replace (Z.of_nat (length row) + j) with (w + j) by lia.
  - intros Hi. unfold Board.is_mine, Board.read, getitem. simpl.
    by rewrite norm_index_out by lia.
  - intros Hi Hj.
    destruct (shaped_row h w _ _ i Hsh Hi) as (row & Hrow & Hlen).
    unfold Board.is_mine, Board.read. simpl.
    rewrite getitem_in by lia. rewrite Hrow. simpl. unfold getitem.
    by rewrite norm_index_out by lia.
Qed.

Lemma is_mine_spec_witness :
  let st := mkState 2 2 {[ (1, 1) ]} [[false; false]; [false; true]] ∅ in
  (0 <= 1 < 2 → 0 <= -1 < 2 →
   Board.is_mine st (1, -1) = Some (bool_decide ((1, -1) ∈ st_mines st)))
  ∧ (- 2 <= 1 < 0 → Board.is_mine st (1, -1) = Board.is_mine st (2 + 1, -1))
  ∧ (0 <= 1 < 2 → - 2 <= -1 < 0 →
     Board.is_mine st (1, -1) = Board.is_mine st (1, 2 + -1))
  ∧ (1 < - 2 ∨ Z.max 0 2 <= 1 → Board.is_mine st (1, -1) = None)
  ∧ (0 <= 1 < 2 → -1 < - 2 ∨ Z.max 0 2 <= -1 →
     Board.is_mine st (1, -1) = None).
Proof.
  intros st. apply (is_mine_spec 2 2 1 [3; 5] st 1 (-1)).
  vm_compute. reflexivity.
Defined.

(** X23.  On an object [Minesweeper.__init__] built, [nearby_mines] raises
    nothing, and the count it reads from the board is the count of the
    mines of the set [mines] around the cell; every mine of that set is on
    the board. *)
Theorem nearby_mines_reads_board (h w m : Z) (rs : list Z)
    (st : MinesweeperState) (c : cell) :
  Board.init h w m rs = Finished st →
  Board.nearby_mines st c
  = Some (Game.nearby_mines (mkGame h w (st_mines st)) c)
  ∧ mines_on_board (mkGame h w (st_mines st)).
Proof.
  intros Hst.
  destruct (init_finished h w m rs st Hst) as (Hh & Hw & _ & Hsh & _).
  split; [by apply nearby_mines_board|].
  intros d Hd. destruct (shaped_mines _ _ _ _ Hsh d Hd).
  unfold Game.in_bounds. simpl. lia.
Qed.

Lemma nearby_mines_reads_board_witness :
  let st := mkState 2 2 {[ (1, 1) ]} [[false; false]; [false; true]] ∅ in
  Board.nearby_mines st (0, 0)
  = Some (Game.nearby_mines (mkGame 2 2 (st_mines st)) (0, 0))
  ∧ mines_on_board (mkGame 2 2 (st_mines st)).
Proof.
  intros st. apply (nearby_mines_reads_board 2 2 1 [3; 5] st (0, 0)).
  vm_compute. reflexivity.
Defined.

(** ** Printing the board *)

Section printing.
Import Ascii.
Implicit Types (st : MinesweeperState) (o : stdout) (h w : Z).

Lemma str_mul_dashes (n : Z) :
  Console.str_mul [Console.dash; Console.dash] n
  = replicate (2 * Z.to_nat n) Console.dash.
Proof.
  unfold Console.str_mul. induction (Z.to_nat n) as [|k IH]; [done|].
  replace (2 * S k)%nat with (S (S (2 * k))) by lia.
  cbn [replicate]. by rewrite <- IH.
Qed.

Lemma rule_dashes st :
  Console.rule st = replicate (2 * Z.to_nat (st_width st) + 1) Console.dash.
Proof.
  unfold Console.rule. change "-"%char with Console.dash.
  rewrite str_mul_dashes, Nat.add_1_r.
  by rewrite replicate_S_end.
Qed.

Lemma print_cells h w st (i : Z) (js : list Z) o :
  st_width st = w →
  shaped h w (st_mines st) (st_board st) →
  0 <= i < h → Forall (λ j, 0 <= j < w) js →
  foldl (Console.print_cell st i) (Some o) js
  = Some (mkOut (out_lines o)
            (out_pending o
             ++ (j ← js; ["|"%char; Console.mark (st_mines st) (i, j)]))).
Proof.
  intros Hw Hsh Hi Hjs. revert o.
  induction Hjs as [|j js Hj Hjs IH]; intros o.
  - destruct o as [L p]. simpl. by rewrite (right_id_L [] (++)).
  - cbn [foldl]. unfold Console.print_cell at 2. cbn [mbind option_bind].
    rewrite (shaped_read h w _ _ Hsh i j Hi Hj). cbn [mbind option_bind].
    assert ((if bool_decide ((i, j) ∈ st_mines st)
             then Console.print_noend ["|"%char; "X"%char] o
             else Console.print_noend ["|"%char; " "%char] o)
            = Console.print_noend
                ["|"%char; Console.mark (st_mines st) (i, j)] o) as ->.
    { unfold Console.mark. by repeat case_bool_decide. }
    rewrite IH. unfold Console.print_noend. cbn [out_lines out_pending].
    rewrite bind_cons. by rewrite <- app_assoc.
Qed.

Lemma print_rows h w st (il : list Z) (L : list (list Ascii.ascii)) :
  st_width st = w →
  shaped h w (st_mines st) (st_board st) →
  Forall (λ i, 0 <= i < h) il →
  foldl (Console.print_row st) (Some (mkOut L [])) il
  = Some (mkOut (L ++ (i ← il; [Console.rule st; Console.row_line st i])) []).
Proof.
  intros Hw Hsh Hil. revert L.
  induction Hil as [|i il Hi Hil IH]; intros L.
  - simpl. by rewrite app_nil_r.
  - cbn [foldl]. unfold Console.print_row at 2. cbn [mbind option_bind].
    rewrite (print_cells h w) by
      (try done; rewrite Hw; apply Forall_forall; intros j Hj;
       by apply elem_of_range in Hj).
    cbn [mbind option_bind]. unfold Console.print.
    cbn [out_lines out_pending]. rewrite IH, bind_cons.
    unfold Console.row_line. rewrite Hw.
    by rewrite <- !app_assoc.
Qed.

Lemma print_board_lines h w st :
  st_height st = h → st_width st = w →
  shaped h w (st_mines st) (st_board st) →
  Console.print_board st (mkOut [] [])
  = Some (mkOut ((i ← range 0 h; [Console.rule st; Console.row_line st i])
                 ++ [Console.rule st]) []).
Proof.
  intros Hh Hw Hsh. unfold Console.print_board. rewrite Hh.
  rewrite (print_rows h w) by
    (try done; apply Forall_forall; intros i Hi;
     by apply elem_of_range in Hi).
  done.
Qed.

Lemma lookup_range (n : Z) (k : nat) :
  (k < Z.to_nat n)%nat → range 0 n !! k = Some (Z.of_nat k).
Proof.
  intros Hk. unfold range. rewrite list_lookup_fmap, Z.sub_0_r.
  by rewrite lookup_seq_lt.
Qed.

Lemma lookup_two {A B} (f g : A → B) (l : list A) (k : nat) :
  (l ≫= λ x, [f x; g x]) !! (2 * k)%nat = f <$> l !! k
  ∧ (l ≫= λ x, [f x; g x]) !! (2 * k + 1)%nat = g <$> l !! k.
Proof.
  revert k. induction l as [|x l IH]; intros k; [done|].
  rewrite bind_cons. destruct k as [|k]; [done|].
  replace (2 * S k)%nat with (S (S (2 * k))) by lia.
  replace (S (S (2 * k)) + 1)%nat with (S (S (2 * k + 1))) by lia.
  apply IH.
Qed.

Lemma length_two {A B} (f g : A → B) (l : list A) :
  length (l ≫= λ x, [f x; g x]) = (2 * length l)%nat.
Proof.
  induction l as [|x l IH]; [done|].
  rewrite bind_cons, length_app, IH. simpl. lia.
Qed.

Lemma length_row_line st i :
  length (Console.row_line st i) = (2 * Z.to_nat (st_width st) + 1)%nat.
Proof.
  unfold Console.row_line.
  rewrite length_app,
    (length_two (λ _, "|"%char) (λ j, Console.mark (st_mines st) (i, j))),
    length_range.
  simpl. by rewrite Z.sub_0_r.
Qed.

Lemma lookup_row_line st i (j : Z) :
  0 <= j < st_width st →
  Console.row_line st i !! Z.to_nat (2 * j + 1)
  = Some (Console.mark (st_mines st) (i, j)).
Proof.
  intros Hj.
  replace (Z.to_nat (2 * j + 1)) with (2 * Z.to_nat j + 1)%nat by lia.
  unfold Console.row_line.
  rewrite lookup_app_l.
  2:{ rewrite (length_two (λ _, "|"%char)
                 (λ j, Console.mark (st_mines st) (i, j))),
        length_range. lia. }
  destruct (lookup_two (λ _ : Z, "|"%char)
              (λ j, Console.mark (st_mines st) (i, j))
              (range 0 (st_width st)) (Z.to_nat j)) as [_ ->].
  rewrite lookup_range by lia. simpl. do 3 f_equal. lia.
Qed.

End printing.

(** X24.  On an object [Minesweeper.__init__] built, [print] raises
    nothing and, from an empty output, leaves [2 * height + 1] lines of
    [2 * width + 1] characters each and no unfinished line.  The lines at
    even places, from 0, hold only dashes; the character at place
    [2 * j + 1] of the line at place [2 * i + 1] is [X] when [(i, j)] is
    in [mines] and a space when it is not. *)
Theorem print_board_spec (h w m : Z) (rs : list Z) (st : MinesweeperState) :
  Board.init h w m rs = Finished st →
  ∃ lines,
    Console.print_board st (mkOut [] []) = Some (mkOut lines [])
    ∧ Z.of_nat (length lines) = 2 * Z.max 0 h + 1
    ∧ Forall (λ l, Z.of_nat (length l) = 2 * Z.max 0 w + 1) lines
    ∧ (∀ (k : nat) l, lines !! (2 * k)%nat = Some l →
         Forall (λ ch, ch = Console.dash) l)
    ∧ (∀ i j, 0 <= i < h → 0 <= j < w →
         ∃ l, lines !! Z.to_nat (2 * i + 1) = Some l
              ∧ l !! Z.to_nat (2 * j + 1)
                = Some (Console.mark (st_mines st) (i, j))).
Proof.
  intros Hst.
  destruct (init_finished h w m rs st Hst) as (Hh & Hw & _ & Hsh & _).
  set (rows := range 0 h ≫= λ i, [Console.rule st; Console.row_line st i]).
  exists (rows ++ [Console.rule st]). split_and!.
  - by apply (print_board_lines h w).
  - rewrite length_app. unfold rows.
    rewrite (length_two (λ _, Console.rule st) (Console.row_line st)),
      length_range.
    simpl. lia.
  - apply Forall_app. split.
    + apply Forall_forall. intros l Hl. unfold rows in Hl.
      apply list_elem_of_bind in Hl as (i & Hl & _).
      apply elem_of_cons in Hl as [->|Hl].
      * rewrite rule_dashes, length_replicate, Hw. lia.
      * apply list_elem_of_singleton in Hl as ->.
        rewrite length_row_line, Hw. lia.
    + constructor; [|constructor].
      rewrite rule_dashes, length_replicate, Hw. lia.
  - intros k l Hl.
    assert (l = Console.rule st) as ->.
    { destruct (decide (k < length (range 0 h))%nat) as [Hk|Hk].
      - rewrite lookup_app_l in Hl.
        2:{ unfold rows.
            rewrite (length_two (λ _, Console.rule st)
                       (Console.row_line st)). lia. }
        unfold rows in Hl.
        destruct (lookup_two (λ _, Console.rule st) (Console.row_line st)
                    (range 0 h) k) as [He _].
        rewrite He in Hl.
        destruct (range 0 h !! k); simpl in Hl; congruence.
      - assert (length rows = (2 * length (range 0 h))%nat) as Hlen.
        { unfold rows.
          apply (length_two (λ _, Console.rule st) (Console.row_line st)). }
        rewrite lookup_app_r in Hl by lia.
        destruct (2 * k - length rows)%nat as [|k'] eqn:Hk'; simpl in Hl;
          [congruence|]. by rewrite lookup_nil in Hl. }
    rewrite rule_dashes. by apply Forall_replicate.
  - intros i j Hi Hj. exists (Console.row_line st i). split.
    + replace (Z.to_nat (2 * i + 1)) with (2 * Z.to_nat i + 1)%nat by lia.
      rewrite lookup_app_l.
      2:{ unfold rows.
          rewrite (length_two (λ _, Console.rule st) (Console.row_line st)),
            length_range. lia. }
      unfold rows.
      destruct (lookup_two (λ _, Console.rule st) (Console.row_line st)
                  (range 0 h) (Z.to_nat i)) as [_ ->].
      rewrite lookup_range by lia. simpl. f_equal. f_equal. lia.
    + apply lookup_row_line. by rewrite Hw.
Qed.

Lemma print_board_spec_witness :
  let st := mkState 2 2 {[ (1, 1) ]} [[false; false]; [false; true]] ∅ in
  ∃ lines,
    Console.print_board st (mkOut [] []) = Some (mkOut lines [])
    ∧ Z.of_nat (length lines) = 2 * Z.max 0 2 + 1
    ∧ Forall (λ l, Z.of_nat (length l) = 2 * Z.max 0 2 + 1) lines
    ∧ (∀ (k : nat) l, lines !! (2 * k)%nat = Some l →
         Forall (λ ch, ch = Console.dash) l)
    ∧ (∀ i j, 0 <= i < 2 → 0 <= j < 2 →
         ∃ l, lines !! Z.to_nat (2 * i + 1) = Some l
              ∧ l !! Z.to_nat (2 * j + 1)
                = Some (Console.mark (st_mines st) (i, j))).
Proof.
  intros st. apply (print_board_spec 2 2 1 [3; 5] st).
  vm_compute. reflexivity.
Defined.
